(** * Terminal snake game (snake.py): embedding and verified properties

    The program is one curses loop.  The embedding follows it function by
    function:

    - a grid cell is the two-element Python list [[row, col]]; every cell
      the program builds has exactly these two entries (lines 43-45, 129,
      149), so a cell is a pair of integers, index 0 being the first
      component and index 1 the second;
    - the snake is the Python list of cells, head first;
    - directions are the raw curses key codes the program stores;
    - Python integers are unbounded, hence [Z]; [//] is floor division;
    - [random.randint] reads a tape of raw draws (the generator state);
    - a curses call is recorded, in program order, in a log; of what
      curses itself does with a call the embedding keeps that
      [newwin(sh-2, sw-2, 1, 1).getmaxyx()] is [(sh-2, sw-2)], that
      [timeout] sets the delay of [getch], and that [addstr] raises
      curses.error when the text does not fit the screen
      ([addstr_raises]), for the one text [main] writes before any size
      is known to suffice, the too-small message of line 26 (the title
      and the instructions, written after the size check, lie within
      every terminal that passes it);
    - [getch] reads one poll slot: a key, or nothing within the interval;
    - exceptions are values of [result].

    The machine [step] takes the program from one [getch] call to the
    next; [main] runs it up to the first one.

    [calculate_new_head] copies a list object and mutates the copy, so it
    is embedded twice: on an object store (references, aliasing) and on
    values; the two are related by [calculate_new_head_store_value]. *)

From Stdlib Require Import Ascii.
From stdpp Require Import base list strings gmap pretty.

Open Scope Z_scope.

(** ** Exceptions *)

Inductive exn :=
  | IndexError      (* indexing an empty list *)
  | ValueError      (* random.randint on an empty range *)
  | NoMoreDraws     (* the tape of draws ended inside create_food's loop *)
  | DanglingRef     (* a reference outside the store: Python has none *)
  | CursesError.    (* curses.error: a write that does not fit the screen *)

Inductive result (A : Type) :=
  | Ok (a : A)
  | Raise (e : exn).
Arguments Ok {A} a.
Arguments Raise {A} e.

#[global] Instance result_ret : MRet result := λ A a, Ok a.
#[global] Instance result_bind : MBind result := λ A B f m,
  match m with
  | Ok a => f a
  | Raise e => Raise e
  end.

(** ** Data model *)

Definition cell : Type := Z * Z.

(** curses.KEY_DOWN .. curses.KEY_RIGHT (octal 0402 .. 0405). *)
Definition KEY_DOWN : Z := 258.
Definition KEY_UP : Z := 259.
Definition KEY_LEFT : Z := 260.
Definition KEY_RIGHT : Z := 261.

(** Python's [ord] on a one-character string. *)
Definition ord (c : Ascii.ascii) : Z := Z.of_nat (Ascii.nat_of_ascii c).

(** ** random.randint and create_food (lines 126-131) *)

(** [random.randint(a, b)] raises ValueError, before drawing, when the
    range is empty; otherwise [randint a b r] is the value it returns when
    the generator's raw draw is [r]: every value of [a..b] and no other. *)
Definition empty_range (a b : Z) : bool := b <? a.

Definition randint (a b r : Z) : Z := a + r `mod` (b - a + 1).

(** One round of the loop draws the row, then the column. *)
Fixpoint create_food (h w : Z) (snake : list cell) (tape : list Z)
    : result (cell * list Z) :=
  if empty_range 1 (h - 2) then Raise ValueError else
  match tape with
  | [] => Raise NoMoreDraws
  | r1 :: tape1 =>
      if empty_range 1 (w - 2) then Raise ValueError else
      match tape1 with
      | [] => Raise NoMoreDraws
      | r2 :: tape2 =>
          let food : cell := (randint 1 (h - 2) r1, randint 1 (w - 2) r2) in
          if bool_decide (food ∉ snake) then Ok (food, tape2)
          else create_food h w snake tape2
      end
  end.

(** ** process_key_input (lines 133-145) *)

Definition process_key_input (key current_direction : Z) : Z :=
  if (key =? KEY_DOWN) && negb (current_direction =? KEY_UP) then KEY_DOWN
  else if (key =? KEY_UP) && negb (current_direction =? KEY_DOWN) then KEY_UP
  else if (key =? KEY_LEFT) && negb (current_direction =? KEY_RIGHT) then KEY_LEFT
  else if (key =? KEY_RIGHT) && negb (current_direction =? KEY_LEFT) then KEY_RIGHT
  else current_direction.

(** ** calculate_new_head (lines 147-158) *)

(** On values: the cell the function returns. *)
Definition calculate_new_head (snake : list cell) (direction : Z) : result cell :=
  match snake with
  | [] => Raise IndexError
  | head :: _ =>
      let new_head := head in
      if direction =? KEY_DOWN then Ok (new_head.1 + 1, new_head.2)
      else if direction =? KEY_UP then Ok (new_head.1 - 1, new_head.2)
      else if direction =? KEY_LEFT then Ok (new_head.1, new_head.2 - 1)
      else if direction =? KEY_RIGHT then Ok (new_head.1, new_head.2 + 1)
      else Ok new_head
  end.

(** On the object store.  A location holds one list object; the snake is
    a list of references.  [copy] allocates a new object; [o[i] += d]
    updates entry [i] of the object at [o] in place. *)
Definition loc := positive.

Definition copy (σ : gmap loc (list Z)) (l : loc) : result (loc * gmap loc (list Z)) :=
  match σ !! l with
  | None => Raise DanglingRef
  | Some v => let l' := fresh (dom σ) in Ok (l', <[l' := v]> σ)
  end.

Definition add_at (σ : gmap loc (list Z)) (l : loc) (i : nat) (d : Z)
    : result (gmap loc (list Z)) :=
  match σ !! l with
  | None => Raise DanglingRef
  | Some v =>
      match v !! i with
      | None => Raise IndexError
      | Some x => Ok (<[l := <[i := x + d]> v]> σ)
      end
  end.

Definition calculate_new_head_store
    (σ : gmap loc (list Z)) (snake : list loc) (direction : Z)
    : result (loc * gmap loc (list Z)) :=
  match snake with
  | [] => Raise IndexError
  | head :: _ =>
      '(new_head, σ1) ← copy σ head;
      if direction =? KEY_DOWN then σ2 ← add_at σ1 new_head 0 1; Ok (new_head, σ2)
      else if direction =? KEY_UP then σ2 ← add_at σ1 new_head 0 (-1); Ok (new_head, σ2)
      else if direction =? KEY_LEFT then σ2 ← add_at σ1 new_head 1 (-1); Ok (new_head, σ2)
      else if direction =? KEY_RIGHT then σ2 ← add_at σ1 new_head 1 1; Ok (new_head, σ2)
      else Ok (new_head, σ1)
  end.

(** ** The curses calls the program makes *)

Inductive glyph := ACS_DIAMOND | ACS_CKBOARD | blank.

Inductive call :=
  | curs_set (visibility : Z)
  | stdscr_timeout (ms : Z)
  | stdscr_clear
  | stdscr_addstr (y x : Z) (text : string)
  | stdscr_refresh
  | stdscr_box
  | time_sleep (secs : Z)
  | newwin (nlines ncols begin_y begin_x : Z)
  | win_keypad (flag : Z)
  | win_timeout (ms : Z)
  | win_clear
  | win_addch (y x : Z) (ch : glyph).

(** [for i, line in enumerate(lines): stdscr.addstr(start_y + i, start_x, line)] *)
Definition addstr_lines (start_y start_x : Z) (lines : list string) : list call :=
  imap (λ i line, stdscr_addstr (start_y + Z.of_nat i) start_x line) lines.

(** [window.getch()] over one poll slot.  [slot] is the key that arrives
    in the slot, if one does.  A window whose delay is negative (the
    curses default) blocks: with no key it is still waiting, [None].  A
    window on which [timeout(delay)] was called with [delay >= 0] returns
    -1 when the slot ends without a key. *)
Definition getch (delay : Z) (slot : option Z) : option Z :=
  match slot with
  | Some key => Some key
  | None => if delay <? 0 then None else Some (-1)
  end.

(** ** Program state *)

Inductive phase := Instructions | Playing | GameOver | Terminated.

(** Locals of [main] assigned once. *)
Record env := Env {
  sh : Z; sw : Z;             (* stdscr.getmaxyx(), line 21 *)
  h : Z; w : Z;               (* win.getmaxyx(), line 37 *)
  snake_x : Z; snake_y : Z;   (* lines 40-41 *)
  stdscr_delay : Z;           (* set by stdscr.timeout, line 18 *)
  win_delay : Z               (* set by win.timeout, line 34 *)
}.

(** Locals of [main] the loop reassigns. *)
Record game := Game {
  snake : list cell;
  direction : Z;
  food : cell;
  score : Z
}.

(** The program suspended at a [getch] call (or ended): [log] holds every
    curses call made so far, [rng] the draws not yet consumed. *)
Record config := Config {
  locals : env;
  at_phase : phase;
  vars : game;
  rng : list Z;
  log : list call
}.

Inductive startup :=
  | TooSmall (calls : list call)      (* main returned at line 29 *)
  | Started (c : config).             (* main reached show_instructions' getch *)

(** ** Python list primitives *)

Definition item0 {A} (l : list A) : result A :=        (* l[0] *)
  match l with
  | [] => Raise IndexError
  | x :: _ => Ok x
  end.

Definition pop {A} (l : list A) : result (A * list A) :=   (* l.pop() *)
  match last l with
  | None => Raise IndexError
  | Some x => Ok (x, removelast l)
  end.

(** ** Screens *)

(** show_instructions, lines 160-178 (up to its getch). *)
Definition show_instructions (sh sw : Z) : list call :=
  let instructions :=
    ["INSTRUCTIONS:"; "Use arrow keys to move"; "Press 'q' to quit"; "";
     "Press any key to start"]%string in
  let start_y := sh `div` 2 - Z.of_nat (length instructions) `div` 2 in
  let start_x := sw `div` 2 - 12 in
  addstr_lines start_y start_x instructions ++ [stdscr_refresh].

(** game_over, lines 181-203 (up to its input loop). *)
Definition game_over_screen (sh sw score : Z) : list call :=
  let game_over_text :=
    ["GAME OVER"; "Final Score: " +:+ pretty score; "";
     "Press 'r' to restart"; "Press 'q' to quit"]%string in
  let start_y := sh `div` 2 - Z.of_nat (length game_over_text) `div` 2 in
  let start_x := sw `div` 2 - 10 in
  [stdscr_clear; stdscr_box] ++
  addstr_lines start_y start_x game_over_text ++ [stdscr_refresh].

(** Top of the game loop, lines 69-70 (up to win.getch). *)
Definition loop_top (e : env) (score : Z) : list call :=
  [stdscr_addstr (sh e - 1) 2 (" Score: " +:+ pretty score +:+ " ");
   stdscr_refresh].

(** The snake literal of lines 42-46 and 96-100. *)
Definition spawn (snake_y snake_x : Z) : list cell :=
  [(snake_y, snake_x); (snake_y, snake_x - 1); (snake_y, snake_x - 2)].

(** [stdscr.addstr(y, x, text)] on a screen of [sh] rows and [sw]
    columns raises curses.error when [(y, x)] is not a cell of the screen,
    or when the text, which wraps at the right edge, reaches the last cell
    of the screen: the cursor cannot move past it. *)
Definition addstr_raises (sh sw y x : Z) (text : string) : bool :=
  negb ((0 <=? y) && (y <? sh) && (0 <=? x) && (x <? sw)) ||
  ((0 <? Z.of_nat (String.length text)) &&
   (sh * sw <=? y * sw + x + Z.of_nat (String.length text))).

(** ** main up to the first suspension (lines 15-64) *)

Definition main (sh sw : Z) (tape : list Z) : result startup :=
  let calls0 := [curs_set 0; stdscr_timeout 100] in
  if (sh <? 10) || (sw <? 30) then
    if addstr_raises sh sw 0 0 "Terminal too small. Resize and try again."
    then Raise CursesError            (* line 26 raises; 27-29 are not run *)
    else
      Ok (TooSmall (calls0 ++
            [stdscr_clear;
             stdscr_addstr 0 0 "Terminal too small. Resize and try again.";
             stdscr_refresh;
             time_sleep 2]))
  else
    let calls1 := [newwin (sh - 2) (sw - 2) 1 1; win_keypad 1; win_timeout 100] in
    let h := sh - 2 in
    let w := sw - 2 in
    let snake_x := w `div` 4 in
    let snake_y := h `div` 2 in
    let snake := spawn snake_y snake_x in
    let direction := KEY_RIGHT in
    '(food, tape') ← create_food h w snake tape;
    let calls2 := [win_addch food.1 food.2 ACS_DIAMOND] in
    let score := 0 in
    let calls3 :=
      [stdscr_box; stdscr_addstr 0 (sw `div` 2 - 5) " SNAKE GAME "; stdscr_refresh] in
    Ok (Started
          {| locals := Env sh sw h w snake_x snake_y 100 100;
             at_phase := Instructions;
             vars := Game snake direction food score;
             rng := tape';
             log := calls0 ++ calls1 ++ calls2 ++ calls3 ++ show_instructions sh sw |}).

(** ** The game loop (lines 67-124) *)

(** The collision test of lines 89-91. *)
Definition collision (h w : Z) (new_head : cell) (snake : list cell) : bool :=
  bool_decide (new_head.1 ∈ [0; h - 1]) ||
  bool_decide (new_head.2 ∈ [0; w - 1]) ||
  bool_decide (new_head ∈ snake).

(** Lines 85-124 and back to the loop top, for the direction in force. *)
Definition move (c : config) (direction : Z) : result config :=
  let e := locals c in
  let g := vars c in
  new_head ← calculate_new_head (snake g) direction;
  if collision (h e) (w e) new_head (snake g) then
    (* game_over(stdscr, sh, sw, score) draws its screen and waits *)
    Ok {| locals := e;
          at_phase := GameOver;
          vars := Game (snake g) direction (food g) (score g);
          rng := rng c;
          log := log c ++ game_over_screen (sh e) (sw e) (score g) |}
  else
    let snake1 := new_head :: snake g in               (* snake.insert(0, new_head) *)
    s0 ← item0 snake1;
    if bool_decide (s0 = food g) then
      '(food', tape') ← create_food (h e) (w e) snake1 (rng c);
      let score' := score g + 1 in
      s0' ← item0 snake1;
      Ok {| locals := e;
            at_phase := Playing;
            vars := Game snake1 direction food' score';
            rng := tape';
            log := log c ++ [win_addch food'.1 food'.2 ACS_DIAMOND;
                             win_addch s0'.1 s0'.2 ACS_CKBOARD]
                         ++ loop_top e score' |}
    else
      '(tail, snake2) ← pop snake1;
      s0' ← item0 snake2;
      Ok {| locals := e;
            at_phase := Playing;
            vars := Game snake2 direction (food g) (score g);
            rng := rng c;
            log := log c ++ [win_addch tail.1 tail.2 blank;
                             win_addch s0'.1 s0'.2 ACS_CKBOARD]
                         ++ loop_top e (score g) |}.

(** One iteration from the value [win.getch()] returned (lines 76-84). *)
Definition tick (c : config) (next_key : Z) : result config :=
  if next_key =? -1 then move c (direction (vars c))
  else if next_key =? ord "q"%char then
    Ok {| locals := locals c; at_phase := Terminated; vars := vars c;
          rng := rng c; log := log c |}
  else move c (process_key_input next_key (direction (vars c))).

(** The restart branch, lines 95-105, and back to the loop top. *)
Definition restart (c : config) : result config :=
  let e := locals c in
  let snake := spawn (snake_y e) (snake_x e) in
  let direction := KEY_RIGHT in
  '(food, tape') ← create_food (h e) (w e) snake (rng c);
  let score := 0 in
  Ok {| locals := e;
        at_phase := Playing;
        vars := Game snake direction food score;
        rng := tape';
        log := log c ++ [win_clear; win_addch food.1 food.2 ACS_DIAMOND]
                     ++ loop_top e score |}.

(** One round of game_over's input loop (lines 206-211) from the value
    [stdscr.getch()] returned: [Some true] restart, [Some false] quit,
    [None] go round again. *)
Definition game_over (key : Z) : option bool :=
  if key =? ord "r"%char then Some true
  else if key =? ord "q"%char then Some false
  else None.

(** ** The machine: one poll slot at a time *)

Definition step (c : config) (slot : option Z) : result config :=
  match at_phase c with
  | Instructions =>
      (* stdscr.getch() of line 179; its value is dropped *)
      match getch (stdscr_delay (locals c)) slot with
      | None => Ok c
      | Some _ =>
          Ok {| locals := locals c; at_phase := Playing; vars := vars c;
                rng := rng c;
                log := log c ++ loop_top (locals c) (score (vars c)) |}
      end
  | Playing =>
      match getch (win_delay (locals c)) slot with
      | None => Ok c
      | Some next_key => tick c next_key
      end
  | GameOver =>
      match getch (stdscr_delay (locals c)) slot with
      | None => Ok c
      | Some key =>
          (* lines 93-107: if game_over(...): reset, continue; else: break *)
          match game_over key with
          | None => Ok c
          | Some true => restart c
          | Some false =>
              Ok {| locals := locals c; at_phase := Terminated; vars := vars c;
                    rng := rng c; log := log c |}
          end
      end
  | Terminated => Ok c
  end.

Fixpoint run (c : config) (slots : list (option Z)) : result config :=
  match slots with
  | [] => Ok c
  | slot :: slots' => c' ← step c slot; run c' slots'
  end.

(** ** Vocabulary of the properties *)

(** Strictly inside the window: off the border rows and columns. *)
Definition interior (h w : Z) (c : cell) : Prop :=
  1 ≤ c.1 ≤ h - 2 ∧ 1 ≤ c.2 ≤ w - 2.

Definition on_border (h w : Z) (c : cell) : Prop :=
  c.1 = 0 ∨ c.1 = h - 1 ∨ c.2 = 0 ∨ c.2 = w - 1.

Definition arrow (d : Z) : Prop :=
  d ∈ [KEY_DOWN; KEY_UP; KEY_LEFT; KEY_RIGHT].

(** The displacement [calculate_new_head] applies for a direction. *)
Definition unit_vector (d : Z) : cell :=
  match calculate_new_head [(0, 0)] d with
  | Ok v => v
  | Raise _ => (0, 0)
  end.

(** Two arrows are opposite when their displacements cancel. *)
Definition opposite (d1 d2 : Z) : Prop :=
  arrow d1 ∧ arrow d2 ∧
  (unit_vector d1).1 + (unit_vector d2).1 = 0 ∧
  (unit_vector d1).2 + (unit_vector d2).2 = 0.

(** The cells one tape makes [create_food] try, round by round. *)
Fixpoint candidates (h w : Z) (tape : list Z) : list cell :=
  match tape with
  | r1 :: r2 :: tape2 =>
      (randint 1 (h - 2) r1, randint 1 (w - 2) r2) :: candidates h w tape2
  | _ => []
  end.

Definition snake_ok (h w : Z) (snake : list cell) : Prop :=
  NoDup snake ∧ Forall (interior h w) snake.

Definition reachable (sh sw : Z) (c : config) : Prop :=
  ∃ tape c0 slots, main sh sw tape = Ok (Started c0) ∧ run c0 slots = Ok c.

(** What [main] fixes once and for all. *)
Definition locals_ok (e : env) : Prop :=
  10 ≤ sh e ∧ 30 ≤ sw e ∧ h e = sh e - 2 ∧ w e = sw e - 2 ∧
  snake_x e = w e `div` 4 ∧ snake_y e = h e `div` 2 ∧
  stdscr_delay e = 100 ∧ win_delay e = 100.

(** The direction in force after the key handling of lines 76-84. *)
Definition steer (next_key current_direction : Z) : Z :=
  if next_key =? -1 then current_direction
  else process_key_input next_key current_direction.

(** A state to try the loop on: a snake heading right with the food on
    the next cell. *)
Definition scenario_eat : config :=
  {| locals := Env 24 80 22 78 19 11 100 100;
     at_phase := Playing;
     vars := Game [(5, 5); (5, 4); (5, 3)] KEY_RIGHT (5, 6) 0;
     rng := [8; 8];
     log := [] |}.

(** Head on the top interior row, heading up. *)
Definition scenario_wall : config :=
  {| locals := Env 24 80 22 78 19 11 100 100;
     at_phase := Playing;
     vars := Game [(1, 5); (2, 5); (3, 5)] KEY_UP (7, 7) 4;
     rng := [];
     log := [] |}.

(** A snake curled under the top border, heading up: going on hits the
    wall, turning left hits its own tail. *)
Definition scenario_corner : config :=
  {| locals := Env 10 30 8 28 7 4 100 100;
     at_phase := Playing;
     vars := Game [(1, 5); (2, 5); (2, 4); (1, 4)] KEY_UP (3, 3) 1;
     rng := [];
     log := [] |}.

(** The state the machine keeps: the locals are the ones [main] set and
    the snake is well formed. *)
Definition config_ok (c : config) : Prop :=
  locals_ok (locals c) ∧
  snake_ok (h (locals c)) (w (locals c)) (snake (vars c)).

(** Some run of the program gets to the game loop. *)
Definition enters_playing (sh sw : Z) : Prop :=
  ∃ c, reachable sh sw c ∧ at_phase c = Playing.

(** ** Vocabulary of the properties of whole runs *)

(** The moves of the machine, one constructor per path through [step]. *)
Inductive transition (c : config) : config → Prop :=
  | waits : transition c c
  | starts :
      at_phase c = Instructions →
      transition c
        {| locals := locals c; at_phase := Playing; vars := vars c;
           rng := rng c;
           log := log c ++ loop_top (locals c) (score (vars c)) |}
  | quits :
      at_phase c = Playing ∨ at_phase c = GameOver →
      transition c
        {| locals := locals c; at_phase := Terminated; vars := vars c;
           rng := rng c; log := log c |}
  | collides (key : Z) (new_head : cell) :
      at_phase c = Playing →
      calculate_new_head (snake (vars c)) (steer key (direction (vars c)))
        = Ok new_head →
      collision (h (locals c)) (w (locals c)) new_head (snake (vars c)) = true →
      transition c
        {| locals := locals c;
           at_phase := GameOver;
           vars := Game (snake (vars c)) (steer key (direction (vars c)))
                        (food (vars c)) (score (vars c));
           rng := rng c;
           log := log c ++ game_over_screen (sh (locals c)) (sw (locals c))
                                            (score (vars c)) |}
  | eats (key : Z) (new_head food' : cell) (tape' : list Z) :
      at_phase c = Playing →
      calculate_new_head (snake (vars c)) (steer key (direction (vars c)))
        = Ok new_head →
      collision (h (locals c)) (w (locals c)) new_head (snake (vars c)) = false →
      new_head = food (vars c) →
      create_food (h (locals c)) (w (locals c))
                  (new_head :: snake (vars c)) (rng c) = Ok (food', tape') →
      transition c
        {| locals := locals c;
           at_phase := Playing;
           vars := Game (new_head :: snake (vars c))
                        (steer key (direction (vars c))) food'
                        (score (vars c) + 1);
           rng := tape';
           log := log c ++ [win_addch food'.1 food'.2 ACS_DIAMOND;
                            win_addch new_head.1 new_head.2 ACS_CKBOARD]
                        ++ loop_top (locals c) (score (vars c) + 1) |}
  | slides (key : Z) (new_head tail : cell) :
      at_phase c = Playing →
      calculate_new_head (snake (vars c)) (steer key (direction (vars c)))
        = Ok new_head →
      collision (h (locals c)) (w (locals c)) new_head (snake (vars c)) = false →
      new_head ≠ food (vars c) →
      last (snake (vars c)) = Some tail →
      transition c
        {| locals := locals c;
           at_phase := Playing;
           vars := Game (new_head :: removelast (snake (vars c)))
                        (steer key (direction (vars c)))
                        (food (vars c)) (score (vars c));
           rng := rng c;
           log := log c ++ [win_addch tail.1 tail.2 blank;
                            win_addch new_head.1 new_head.2 ACS_CKBOARD]
                        ++ loop_top (locals c) (score (vars c)) |}
  | restarts (food' : cell) (tape' : list Z) :
      at_phase c = GameOver →
      create_food (h (locals c)) (w (locals c))
                  (spawn (snake_y (locals c)) (snake_x (locals c))) (rng c)
        = Ok (food', tape') →
      transition c
        {| locals := locals c;
           at_phase := Playing;
           vars := Game (spawn (snake_y (locals c)) (snake_x (locals c)))
                        KEY_RIGHT food' 0;
           rng := tape';
           log := log c ++ [win_clear; win_addch food'.1 food'.2 ACS_DIAMOND]
                        ++ loop_top (locals c) 0 |}.

(** Two cells one step apart on the grid. *)
Definition adjacent (a b : cell) : Prop :=
  Z.abs (a.1 - b.1) + Z.abs (a.2 - b.2) = 1.

(** Each cell of the list is one step from the next. *)
Fixpoint chain (l : list cell) : Prop :=
  match l with
  | [] => True
  | a :: t =>
      match t with
      | [] => True
      | b :: _ => adjacent a b
      end ∧ chain t
  end.

(** The head is where the direction in force took it from the second
    cell. *)
Definition heading_ok (g : game) : Prop :=
  match snake g with
  | head :: neck :: _ => calculate_new_head [neck] (direction g) = Ok head
  | _ => False
  end.

(** What the game keeps true between two [getch] calls. *)
Definition game_ok (c : config) : Prop :=
  config_ok c ∧
  (3 ≤ length (snake (vars c)))%nat ∧
  score (vars c) = Z.of_nat (length (snake (vars c))) - 3 ∧
  arrow (direction (vars c)) ∧
  interior (h (locals c)) (w (locals c)) (food (vars c)) ∧
  (food (vars c) ∉ snake (vars c)) ∧
  chain (snake (vars c)) ∧
  (at_phase c = Instructions ∨ at_phase c = Playing → heading_ok (vars c)).

(** A cell drawn in the game window lies off its border. *)
Definition drawn_inside (h w : Z) (k : call) : Prop :=
  match k with
  | win_addch y x _ => interior h w (y, x)
  | _ => True
  end.

(** The contents of the game window after a sequence of calls:
    [win.addch] puts a glyph on a cell, [win.clear] empties the window,
    the calls on [stdscr] leave it alone. *)
Definition paint (scr : gmap cell glyph) (k : call) : gmap cell glyph :=
  match k with
  | win_addch y x ch => <[(y, x) := ch]> scr
  | win_clear => ∅
  | _ => scr
  end.

Definition window (calls : list call) : gmap cell glyph :=
  foldl paint ∅ calls.

(** The window shows the food glyph on the food cell only, and the snake
    glyph on cells of the snake only. *)
Definition window_ok (c : config) : Prop :=
  (∀ p, window (log c) !! p = Some ACS_DIAMOND ↔ p = food (vars c)) ∧
  (∀ p, window (log c) !! p = Some ACS_CKBOARD → p ∈ snake (vars c)).

(** A string written on [stdscr] lies within the terminal. *)
Definition fits (sh sw : Z) (k : call) : Prop :=
  match k with
  | stdscr_addstr y x text =>
      0 ≤ y < sh ∧ 0 ≤ x ∧ x + Z.of_nat (String.length text) ≤ sw
  | _ => True
  end.

(** Steps left before the head, going straight in direction [d], comes
    to the border. *)
Definition wall_distance (h w : Z) (d : Z) (head : cell) : Z :=
  if d =? KEY_DOWN then h - 1 - head.1
  else if d =? KEY_UP then head.1
  else if d =? KEY_LEFT then head.2
  else w - 1 - head.2.

(** A walk on the 8 x 28 window of a 10 x 30 terminal: it starts one
    step from the spawned head (4, 7) and goes, one step at a time,
    through every interior cell that is not a spawn cell (153 cells). *)
Definition filling_walk : list cell :=
  [(5, 7); (6, 7); (6, 8); (5, 8); (4, 8); (4, 9); (5, 9); (6, 9);
   (6, 10); (5, 10); (4, 10); (4, 11); (5, 11); (6, 11); (6, 12); (5, 12);
   (4, 12); (4, 13); (5, 13); (6, 13); (6, 14); (5, 14); (4, 14); (4, 15);
   (5, 15); (6, 15); (6, 16); (5, 16); (4, 16); (4, 17); (5, 17); (6, 17);
   (6, 18); (5, 18); (4, 18); (4, 19); (5, 19); (6, 19); (6, 20); (5, 20);
   (4, 20); (4, 21); (5, 21); (6, 21); (6, 22); (5, 22); (4, 22); (4, 23);
   (5, 23); (6, 23); (6, 24); (5, 24); (4, 24); (4, 25); (5, 25); (6, 25);
   (6, 26); (5, 26); (4, 26); (3, 26); (2, 26); (1, 26); (1, 25); (2, 25);
   (3, 25); (3, 24); (2, 24); (1, 24); (1, 23); (2, 23); (3, 23); (3, 22);
   (2, 22); (1, 22); (1, 21); (2, 21); (3, 21); (3, 20); (2, 20); (1, 20);
   (1, 19); (2, 19); (3, 19); (3, 18); (2, 18); (1, 18); (1, 17); (2, 17);
   (3, 17); (3, 16); (2, 16); (1, 16); (1, 15); (2, 15); (3, 15); (3, 14);
   (2, 14); (1, 14); (1, 13); (2, 13); (3, 13); (3, 12); (2, 12); (1, 12);
   (1, 11); (2, 11); (3, 11); (3, 10); (2, 10); (1, 10); (1, 9); (2, 9);
   (3, 9); (3, 8); (2, 8); (1, 8); (1, 7); (2, 7); (3, 7); (3, 6);
   (2, 6); (1, 6); (1, 5); (2, 5); (3, 5); (3, 4); (2, 4); (1, 4);
   (1, 3); (2, 3); (3, 3); (3, 2); (2, 2); (1, 2); (1, 1); (2, 1);
   (3, 1); (4, 1); (5, 1); (6, 1); (6, 2); (5, 2); (4, 2); (4, 3);
   (5, 3); (6, 3); (6, 4); (6, 5); (6, 6); (5, 6); (5, 5); (5, 4);
   (4, 4)].

(** The raw draws that make [create_food] try a given interior cell. *)
Definition draws_for (p : cell) : list Z := [p.1 - 1; p.2 - 1].

(** The arrow key that leads from a cell to a neighbouring cell. *)
Definition key_towards (a b : cell) : Z :=
  if b.1 =? a.1 + 1 then KEY_DOWN
  else if b.1 =? a.1 - 1 then KEY_UP
  else if b.2 =? a.2 - 1 then KEY_LEFT
  else KEY_RIGHT.

Fixpoint keys_along (from : cell) (walk : list cell) : list (option Z) :=
  match walk with
  | [] => []
  | p :: walk' => Some (key_towards from p) :: keys_along p walk'
  end.

(** Draws that put each food on the next cell of the walk, and the polls
    of a player who follows the walk up to its last cell but one: one
    poll to leave the instructions, then one arrow per tick. *)
Definition filling_tape : list Z := concat (draws_for <$> filling_walk).

Definition filling_slots : list (option Z) :=
  None :: keys_along (4, 7) (take 152 filling_walk).

(** A key the game-over prompt does not act on. *)
Definition idle_slot (slot : option Z) : Prop :=
  slot ≠ Some (ord "r"%char) ∧ slot ≠ Some (ord "q"%char).

(** ** Sanity checks *)

Example create_food_ex :
  create_food 8 28 [(4,7);(4,6);(4,5)] [3; 6; 3; 5; 0; 0] = Ok ((1, 1), []).
Proof. vm_compute. reflexivity. Qed.

(** ** Direction mapper *)

Lemma arrow_cases d :
  arrow d ↔ d = KEY_DOWN ∨ d = KEY_UP ∨ d = KEY_LEFT ∨ d = KEY_RIGHT.
Proof.
  unfold arrow. rewrite !elem_of_cons, elem_of_nil. tauto.
Qed.

Lemma opposite_cases d1 d2 :
  opposite d1 d2 ↔
    (d1 = KEY_DOWN ∧ d2 = KEY_UP) ∨ (d1 = KEY_UP ∧ d2 = KEY_DOWN) ∨
    (d1 = KEY_LEFT ∧ d2 = KEY_RIGHT) ∨ (d1 = KEY_RIGHT ∧ d2 = KEY_LEFT).
Proof.
  unfold opposite. rewrite !arrow_cases. split.
  - intros ([-> | [-> | [-> | ->]]] & [-> | [-> | [-> | ->]]] & Hr & Hc);
      vm_compute in Hr, Hc; try discriminate; tauto.
  - intros [[-> ->] | [[-> ->] | [[-> ->] | [-> ->]]]]; vm_compute; tauto.
Qed.

Ltac key_cases :=
  repeat match goal with
         | |- context [?a =? ?b] => destruct (Z.eqb_spec a b); subst; simpl
         end.

Lemma process_key_input_accepts key cur :
  arrow key → ¬ opposite key cur → process_key_input key cur = key.
Proof.
  rewrite arrow_cases, opposite_cases. unfold process_key_input.
  intros Hk Hopp. key_cases; try reflexivity; try (exfalso; tauto);
    exfalso; destruct Hk as [-> | [-> | [-> | ->]]]; congruence.
Qed.

(** C6.  For a current direction among the four arrows and any raw key,
    process_key_input never returns the geometric opposite of the current
    direction; and a key that is not an arrow, or is the arrow opposite to
    the current direction, leaves the current direction unchanged. *)
Theorem process_key_input_no_reversal (key cur : Z) :
  arrow cur →
  ¬ opposite (process_key_input key cur) cur ∧
  (¬ arrow key ∨ opposite key cur → process_key_input key cur = cur).
Proof.
  rewrite !arrow_cases, !opposite_cases. unfold process_key_input.
  intros Hcur. split.
  - key_cases; intros H; destruct H as [[? ?] | [[? ?] | [[? ?] | [? ?]]]];
      try discriminate; try congruence;
      destruct Hcur as [-> | [-> | [-> | ->]]]; discriminate.
  - intros H. key_cases; try reflexivity; exfalso;
      destruct H as [H | [[? ?] | [[? ?] | [[? ?] | [? ?]]]]];
      try discriminate; try congruence; apply H; tauto.
Qed.

Lemma process_key_input_no_reversal_witness :
  arrow KEY_RIGHT ∧
  process_key_input KEY_LEFT KEY_RIGHT = KEY_RIGHT ∧
  process_key_input 120 KEY_RIGHT = KEY_RIGHT ∧
  ¬ opposite (process_key_input KEY_LEFT KEY_RIGHT) KEY_RIGHT.
Proof.
  assert (Ha : arrow KEY_RIGHT) by (apply arrow_cases; tauto).
  split; [exact Ha |].
  split; [| split].
  - apply (process_key_input_no_reversal KEY_LEFT KEY_RIGHT Ha).
    right. apply opposite_cases. tauto.
  - apply (process_key_input_no_reversal 120 KEY_RIGHT Ha).
    left. rewrite arrow_cases. intros [H | [H | [H | H]]]; discriminate H.
  - apply (process_key_input_no_reversal KEY_LEFT KEY_RIGHT Ha).
Defined.

(** ** calculate_new_head on the object store *)

Lemma copy_spec (σ : gmap loc (list Z)) (l : loc) (v : list Z) :
  σ !! l = Some v →
  ∃ l', copy σ l = Ok (l', <[l' := v]> σ) ∧ σ !! l' = None.
Proof.
  intros Hl. unfold copy. rewrite Hl. eexists. split; [reflexivity |].
  apply not_elem_of_dom, is_fresh.
Qed.

Lemma add_at_fresh (σ : gmap loc (list Z)) (l : loc) (v : list Z) (i : nat) (x d : Z) :
  v !! i = Some x →
  add_at (<[l := v]> σ) l i d = Ok (<[l := <[i := x + d]> v]> σ).
Proof.
  intros Hi. unfold add_at. rewrite lookup_insert_eq, Hi.
  by rewrite insert_insert_eq.
Qed.

(** C10.  For a non-empty snake whose head object is [[y, x]],
    calculate_new_head returns a reference to a new object (allocated by
    the call, so distinct from every cell of the snake); every object that
    existed before the call, the head cell among them, is left as it was;
    the new object is the head shifted by one unit along the axis of the
    arrow, and an unshifted copy of the head for any other direction. *)
Theorem calculate_new_head_fresh_shifted
    (σ : gmap loc (list Z)) (snake : list loc) (head : loc) (rest : list loc)
    (y x direction : Z) :
  snake = head :: rest →
  (∀ l, l ∈ snake → is_Some (σ !! l)) →
  σ !! head = Some [y; x] →
  ∃ new_head σ',
    calculate_new_head_store σ snake direction = Ok (new_head, σ') ∧
    σ !! new_head = None ∧
    (new_head ∉ snake) ∧
    (∀ l, l ≠ new_head → σ' !! l = σ !! l) ∧
    σ' !! head = Some [y; x] ∧
    (direction = KEY_DOWN → σ' !! new_head = Some [y + 1; x]) ∧
    (direction = KEY_UP → σ' !! new_head = Some [y - 1; x]) ∧
    (direction = KEY_LEFT → σ' !! new_head = Some [y; x - 1]) ∧
    (direction = KEY_RIGHT → σ' !! new_head = Some [y; x + 1]) ∧
    (¬ arrow direction → σ' !! new_head = Some [y; x]).
Proof.
  intros -> Hlive Hhead.
  destruct (copy_spec σ head [y; x] Hhead) as (new_head & Hcopy & Hfresh).
  assert (Hnew : new_head ∉ head :: rest).
  { intros Hin. apply Hlive in Hin. rewrite Hfresh in Hin. by destruct Hin. }
  assert (Hne : head ≠ new_head) by (intros ->; apply Hnew; left).
  assert (Hframe : ∀ (v : list Z) l,
             l ≠ new_head → <[new_head := v]> σ !! l = σ !! l).
  { intros v l Hl. by apply lookup_insert_ne. }
  unfold calculate_new_head_store. rewrite Hcopy. simpl.
  destruct (Z.eqb_spec direction KEY_DOWN) as [-> | Hd];
    [rewrite (add_at_fresh σ new_head [y; x] 0 y 1 eq_refl); simpl |].
  2: destruct (Z.eqb_spec direction KEY_UP) as [-> | Hu];
    [rewrite (add_at_fresh σ new_head [y; x] 0 y (-1) eq_refl); simpl |].
  3: destruct (Z.eqb_spec direction KEY_LEFT) as [-> | Hl];
    [rewrite (add_at_fresh σ new_head [y; x] 1 x (-1) eq_refl); simpl |].
  4: destruct (Z.eqb_spec direction KEY_RIGHT) as [-> | Hr];
    [rewrite (add_at_fresh σ new_head [y; x] 1 x 1 eq_refl); simpl |].
  all: eexists _, _; split; [reflexivity |];
    rewrite lookup_insert_eq, Hframe by done;
    split_and!;
    [ exact Hfresh | exact Hnew | intros l0 Hl0; by apply Hframe | exact Hhead | .. ];
    try (intros Heq; first [discriminate Heq | congruence | reflexivity]);
    try (intros Hn; exfalso; apply Hn, arrow_cases; tauto).
Qed.

Lemma calculate_new_head_fresh_shifted_witness :
  ∃ new_head σ',
    calculate_new_head_store {[ 1%positive := [5; 5]; 2%positive := [5; 4] ]}
      [1%positive; 2%positive] KEY_UP = Ok (new_head, σ') ∧
    σ' !! new_head = Some [4; 5] ∧
    σ' !! 1%positive = Some [5; 5].
Proof.
  destruct (calculate_new_head_fresh_shifted
              {[ 1%positive := [5; 5]; 2%positive := [5; 4] ]}
              [1%positive; 2%positive] 1%positive [2%positive] 5 5 KEY_UP)
    as (new_head & σ' & Hrun & _ & _ & _ & Hhead & _ & Hup & _).
  - reflexivity.
  - intros l Hl. apply elem_of_cons in Hl as [-> | Hl]; [by eexists |].
    apply elem_of_cons in Hl as [-> | Hl]; [by eexists |].
    by apply elem_of_nil in Hl.
  - reflexivity.
  - exists new_head, σ'. split; [exact Hrun |]. split; [by apply Hup | exact Hhead].
Defined.

(** The value-level function computes the contents of the object the
    store-level one returns. *)
Lemma calculate_new_head_store_value
    (σ : gmap loc (list Z)) (head : loc) (rest : list loc)
    (c : cell) (cells : list cell) (direction : Z) :
  σ !! head = Some [c.1; c.2] →
  ∃ new_head σ' c',
    calculate_new_head_store σ (head :: rest) direction = Ok (new_head, σ') ∧
    calculate_new_head (c :: cells) direction = Ok c' ∧
    σ' !! new_head = Some [c'.1; c'.2].
Proof.
  intros Hhead.
  destruct (copy_spec σ head _ Hhead) as (new_head & Hcopy & Hfresh).
  unfold calculate_new_head_store, calculate_new_head. rewrite Hcopy. simpl.
  destruct (Z.eqb_spec direction KEY_DOWN);
    [rewrite (add_at_fresh σ new_head [c.1; c.2] 0 (c.1) 1 eq_refl); simpl;
     eexists _, _, _; repeat split; by rewrite lookup_insert_eq |].
  destruct (Z.eqb_spec direction KEY_UP);
    [rewrite (add_at_fresh σ new_head [c.1; c.2] 0 (c.1) (-1) eq_refl); simpl;
     eexists _, _, _; repeat split; by rewrite lookup_insert_eq |].
  destruct (Z.eqb_spec direction KEY_LEFT);
    [rewrite (add_at_fresh σ new_head [c.1; c.2] 1 (c.2) (-1) eq_refl); simpl;
     eexists _, _, _; repeat split; by rewrite lookup_insert_eq |].
  destruct (Z.eqb_spec direction KEY_RIGHT);
    [rewrite (add_at_fresh σ new_head [c.1; c.2] 1 (c.2) 1 eq_refl); simpl;
     eexists _, _, _; repeat split; by rewrite lookup_insert_eq |].
  eexists _, _, _; repeat split. by rewrite lookup_insert_eq.
Qed.

(** ** Food placement *)

(** Induction over a tape, one round (two draws) at a time. *)
Lemma tape_rounds_ind (P : list Z → Prop) :
  P [] →
  (∀ r, P [r]) →
  (∀ r1 r2 tape, P tape → P (r1 :: r2 :: tape)) →
  ∀ tape, P tape.
Proof.
  intros Hnil Hone Hround tape.
  cut (P tape ∧ ∀ r, P (r :: tape)); [tauto |].
  induction tape as [| r' tape [IH1 IH2]]; split; auto.
Qed.

Lemma randint_range (a b r : Z) :
  empty_range a b = false → a ≤ randint a b r ≤ b.
Proof.
  unfold empty_range, randint. intros Hab%Z.ltb_ge.
  pose proof (Z.mod_pos_bound r (b - a + 1)). lia.
Qed.

(** Every value of a non-empty range is drawn by some raw draw. *)
Lemma randint_onto (a b v : Z) :
  a ≤ v ≤ b → randint a b (v - a) = v.
Proof.
  intros Hv. unfold randint. rewrite Z.mod_small; lia.
Qed.

Lemma randint_zero (a b : Z) : randint a b 0 = a.
Proof. unfold randint. rewrite Zmod_0_l. lia. Qed.

Section FoodPlacement.

Context (h w : Z) (snake : list cell).

Lemma create_food_round (r1 r2 : Z) (tape : list Z) :
  empty_range 1 (h - 2) = false →
  empty_range 1 (w - 2) = false →
  create_food h w snake (r1 :: r2 :: tape) =
    let food := (randint 1 (h - 2) r1, randint 1 (w - 2) r2) in
    if bool_decide (food ∉ snake) then Ok (food, tape)
    else create_food h w snake tape.
Proof. intros Hh Hw. simpl. by rewrite Hh, Hw. Qed.

Lemma create_food_sound (tape : list Z) food rest :
  create_food h w snake tape = Ok (food, rest) →
  (food ∉ snake) ∧ interior h w food.
Proof.
  revert food rest. induction tape as [| r | r1 r2 tape IH] using tape_rounds_ind;
    intros food rest; simpl.
  - destruct (empty_range 1 (h - 2)); discriminate.
  - destruct (empty_range 1 (h - 2)); [discriminate |].
    destruct (empty_range 1 (w - 2)); discriminate.
  - destruct (empty_range 1 (h - 2)) eqn:Hh; [discriminate |].
    destruct (empty_range 1 (w - 2)) eqn:Hw; [discriminate |].
    case_bool_decide as Hfree.
    + intros [= <- <-]. split; [exact Hfree |].
      split; simpl; by apply randint_range.
    + fold (create_food h w snake tape). apply IH.
Qed.

Lemma create_food_complete (tape : list Z) :
  empty_range 1 (h - 2) = false →
  empty_range 1 (w - 2) = false →
  (∃ c, c ∈ candidates h w tape ∧ c ∉ snake) →
  ∃ food rest, create_food h w snake tape = Ok (food, rest).
Proof.
  intros Hh Hw.
  induction tape as [| r | r1 r2 tape IH] using tape_rounds_ind;
    intros (c & Hc & Hfree); simpl in Hc.
  - by apply elem_of_nil in Hc.
  - by apply elem_of_nil in Hc.
  - rewrite create_food_round by done. simpl.
    case_bool_decide as Hfood; [by eexists _, _ |].
    apply IH. exists c. split; [| exact Hfree].
    apply elem_of_cons in Hc as [-> | Hc]; [contradiction | exact Hc].
Qed.

(** When the loop does not return, either a range was empty or every
    round of the tape drew a cell of the snake. *)
Lemma create_food_raises (tape : list Z) e :
  create_food h w snake tape = Raise e →
  (e = ValueError ∧ (h - 2 < 1 ∨ w - 2 < 1)) ∨
  (e = NoMoreDraws ∧ Forall (λ c, c ∈ snake) (candidates h w tape)).
Proof.
  induction tape as [| r | r1 r2 tape IH] using tape_rounds_ind; simpl.
  - unfold empty_range. destruct (Z.ltb_spec (h - 2) 1); intros [= <-]; auto.
  - unfold empty_range. destruct (Z.ltb_spec (h - 2) 1); [intros [= <-]; auto |].
    destruct (Z.ltb_spec (w - 2) 1); intros [= <-]; auto.
  - unfold empty_range. destruct (Z.ltb_spec (h - 2) 1); [intros [= <-]; auto |].
    destruct (Z.ltb_spec (w - 2) 1); [intros [= <-]; auto |].
    case_bool_decide as Hfree; [discriminate |].
    fold (create_food h w snake tape). intros Hr.
    destruct (IH Hr) as [? | [-> Hall]]; [by left | right].
    split; [reflexivity |]. constructor; [| exact Hall].
    destruct (decide ((randint 1 (h - 2) r1, randint 1 (w - 2) r2) ∈ snake)); tauto.
Qed.

(** C5.  When the occupied cells do not cover the interior: whatever
    create_food returns is outside the occupied cells and strictly inside
    the interior (rows 1..h-2, columns 1..w-2); the loop returns on every
    tape of draws one round of which yields a free cell; and such a tape
    exists.  (On the other tapes it has not returned when the draws end.) *)
Theorem create_food_free_interior :
  (∃ c, interior h w c ∧ c ∉ snake) →
  (∀ tape food rest,
     create_food h w snake tape = Ok (food, rest) →
     (food ∉ snake) ∧ interior h w food) ∧
  (∀ tape,
     (∃ c, c ∈ candidates h w tape ∧ c ∉ snake) →
     ∃ food rest, create_food h w snake tape = Ok (food, rest)) ∧
  (∃ tape food rest, create_food h w snake tape = Ok (food, rest)) ∧
  (∀ tape e, create_food h w snake tape = Raise e →
     e = NoMoreDraws ∧ Forall (λ c, c ∈ snake) (candidates h w tape)).
Proof.
  intros (c & [Hrow Hcol] & Hfree).
  assert (Hh : empty_range 1 (h - 2) = false) by (apply Z.ltb_ge; lia).
  assert (Hw : empty_range 1 (w - 2) = false) by (apply Z.ltb_ge; lia).
  split_and!.
  - intros tape food rest. apply create_food_sound.
  - intros tape. by apply create_food_complete.
  - exists [c.1 - 1; c.2 - 1].
    apply create_food_complete; [done | done |].
    exists c. split; [| exact Hfree]. simpl.
    rewrite !randint_onto by lia. destruct c. left.
  - intros tape e Hr. destruct (create_food_raises _ _ Hr) as [[_ ?] | ?]; [lia | done].
Qed.

End FoodPlacement.

Lemma create_food_free_interior_witness :
  ∃ food rest,
    create_food 8 28 [(4, 7); (4, 6); (4, 5)] [3; 6; 3; 5; 0; 0] = Ok (food, rest) ∧
    (food ∉ [(4, 7); (4, 6); (4, 5)]) ∧ interior 8 28 food.
Proof.
  assert (Hfree : ∃ c, interior 8 28 c ∧ c ∉ [(4, 7); (4, 6); (4, 5)]).
  { exists (1, 1). split; [unfold interior; simpl; lia |].
    apply (bool_decide_unpack _). vm_compute. exact I. }
  destruct (create_food_free_interior 8 28 [(4, 7); (4, 6); (4, 5)] Hfree)
    as (Hsound & _ & _ & _).
  exists (1, 1), []. split; [vm_compute; reflexivity |].
  apply (Hsound [3; 6; 3; 5; 0; 0] (1, 1) []). vm_compute. reflexivity.
Defined.

(** ** One move of the snake *)

Lemma collision_spec (h w : Z) (new_head : cell) (snake : list cell) :
  collision h w new_head snake = true ↔
  on_border h w new_head ∨ new_head ∈ snake.
Proof.
  unfold collision, on_border.
  rewrite !orb_true_iff, !bool_decide_eq_true, !elem_of_cons, !elem_of_nil.
  tauto.
Qed.

Lemma collision_free (h w : Z) (new_head : cell) (snake : list cell) :
  collision h w new_head snake = false ↔
  ¬ on_border h w new_head ∧ new_head ∉ snake.
Proof.
  rewrite <- not_true_iff_false, collision_spec. tauto.
Qed.

Lemma calculate_new_head_nonempty (snake : list cell) (d : Z) (new_head : cell) :
  calculate_new_head snake d = Ok new_head →
  ∃ head rest, snake = head :: rest.
Proof. destruct snake as [| head rest]; [discriminate | eauto]. Qed.

(** [calculate_new_head] moves the head by at most one step on one axis. *)
Lemma calculate_new_head_near (head : cell) (rest : list cell) (d : Z) (new_head : cell) :
  calculate_new_head (head :: rest) d = Ok new_head →
  new_head = head ∨
  (new_head.2 = head.2 ∧ (new_head.1 = head.1 + 1 ∨ new_head.1 = head.1 - 1)) ∨
  (new_head.1 = head.1 ∧ (new_head.2 = head.2 + 1 ∨ new_head.2 = head.2 - 1)).
Proof.
  unfold calculate_new_head.
  repeat case_match; intros [= <-]; simpl; destruct head; auto.
Qed.

Lemma pop_cons_cons {A} (x y : A) (l : list A) :
  ∃ t, pop (x :: y :: l) = Ok (t, x :: removelast (y :: l)) ∧
       last (y :: l) = Some t.
Proof.
  unfold pop. change (last (x :: y :: l)) with (last (y :: l)).
  destruct (last (y :: l)) as [t |] eqn:Hlast.
  - exists t. split; reflexivity.
  - by apply last_None in Hlast.
Qed.

Lemma move_collides (c : config) (d : Z) (new_head : cell) :
  calculate_new_head (snake (vars c)) d = Ok new_head →
  collision (h (locals c)) (w (locals c)) new_head (snake (vars c)) = true →
  move c d =
    Ok {| locals := locals c;
          at_phase := GameOver;
          vars := Game (snake (vars c)) d (food (vars c)) (score (vars c));
          rng := rng c;
          log := log c ++ game_over_screen (sh (locals c)) (sw (locals c))
                                           (score (vars c)) |}.
Proof. intros Hnew Hhit. unfold move. rewrite Hnew. simpl. by rewrite Hhit. Qed.

Lemma move_eats (c : config) (d : Z) (new_head : cell) :
  calculate_new_head (snake (vars c)) d = Ok new_head →
  collision (h (locals c)) (w (locals c)) new_head (snake (vars c)) = false →
  new_head = food (vars c) →
  move c d =
    match create_food (h (locals c)) (w (locals c))
                      (new_head :: snake (vars c)) (rng c) with
    | Ok (food', tape') =>
        Ok {| locals := locals c;
              at_phase := Playing;
              vars := Game (new_head :: snake (vars c)) d food' (score (vars c) + 1);
              rng := tape';
              log := log c ++ [win_addch food'.1 food'.2 ACS_DIAMOND;
                               win_addch new_head.1 new_head.2 ACS_CKBOARD]
                           ++ loop_top (locals c) (score (vars c) + 1) |}
    | Raise e => Raise e
    end.
Proof.
  intros Hnew Hfree Heat. unfold move. rewrite Hnew. simpl. rewrite Hfree. simpl.
  rewrite bool_decide_eq_true_2 by exact Heat.
  destruct (create_food _ _ _ _) as [[food' tape'] | e]; reflexivity.
Qed.

Lemma move_slides (c : config) (d : Z) (new_head : cell) :
  calculate_new_head (snake (vars c)) d = Ok new_head →
  collision (h (locals c)) (w (locals c)) new_head (snake (vars c)) = false →
  new_head ≠ food (vars c) →
  ∃ tail,
    last (snake (vars c)) = Some tail ∧
    move c d =
      Ok {| locals := locals c;
            at_phase := Playing;
            vars := Game (new_head :: removelast (snake (vars c))) d
                         (food (vars c)) (score (vars c));
            rng := rng c;
            log := log c ++ [win_addch tail.1 tail.2 blank;
                             win_addch new_head.1 new_head.2 ACS_CKBOARD]
                         ++ loop_top (locals c) (score (vars c)) |}.
Proof.
  intros Hnew Hfree Hne.
  destruct (calculate_new_head_nonempty _ _ _ Hnew) as (head & rest & Hsnake).
  unfold move. rewrite Hnew. simpl. rewrite Hfree. simpl.
  rewrite bool_decide_eq_false_2 by exact Hne.
  rewrite Hsnake.
  destruct (pop_cons_cons new_head head rest) as (tail & -> & Hlast).
  exists tail. split; [exact Hlast | reflexivity].
Qed.

Lemma tick_moves (c : config) (next_key : Z) :
  next_key ≠ ord "q"%char →
  tick c next_key = move c (steer next_key (direction (vars c))).
Proof.
  intros Hq. unfold tick, steer.
  destruct (next_key =? -1); [reflexivity |].
  by rewrite (proj2 (Z.eqb_neq _ _) Hq).
Qed.

Lemma length_removelast_cons {A} (x : A) (l : list A) :
  length (removelast (x :: l)) = length l.
Proof.
  revert x. induction l as [| y l IH]; intros x; [reflexivity |].
  change (removelast (x :: y :: l)) with (x :: removelast (y :: l)).
  cbn [length]. by rewrite IH.
Qed.

Lemma final_score_shown (sh sw score : Z) :
  stdscr_addstr (sh `div` 2 - 2 + 1) (sw `div` 2 - 10)
    ("Final Score: " +:+ pretty score) ∈ game_over_screen sh sw score.
Proof.
  unfold game_over_screen, addstr_lines. cbn [imap length app].
  change (Z.of_nat 5 `div` 2) with 2. set_solver.
Qed.

(** What does hold of a tick whose move does not collide (a tick the
    quit key does not end): when the new head is the food cell, the tick
    returns as soon as create_food does, with the new head prepended and no cell
    removed (length plus one) and the score plus one; otherwise the new
    head is prepended and the last cell removed, so the length is
    unchanged, and the score and the food are unchanged. *)
Theorem tick_length_score (c : config) (next_key : Z) (new_head : cell) :
  next_key ≠ ord "q"%char →
  calculate_new_head (snake (vars c)) (steer next_key (direction (vars c)))
    = Ok new_head →
  collision (h (locals c)) (w (locals c)) new_head (snake (vars c)) = false →
  (new_head = food (vars c) →
     match create_food (h (locals c)) (w (locals c))
                       (new_head :: snake (vars c)) (rng c) with
     | Ok (food', _) =>
         ∃ c', tick c next_key = Ok c' ∧
               at_phase c' = Playing ∧
               snake (vars c') = new_head :: snake (vars c) ∧
               length (snake (vars c')) = S (length (snake (vars c))) ∧
               score (vars c') = score (vars c) + 1 ∧
               food (vars c') = food'
     | Raise e => tick c next_key = Raise e
     end) ∧
  (new_head ≠ food (vars c) →
     ∃ c', tick c next_key = Ok c' ∧
           at_phase c' = Playing ∧
           snake (vars c') = new_head :: removelast (snake (vars c)) ∧
           length (snake (vars c')) = length (snake (vars c)) ∧
           score (vars c') = score (vars c) ∧
           food (vars c') = food (vars c)).
Proof.
  intros Hq Hnew Hfree. rewrite tick_moves by exact Hq. split.
  - intros Heat. rewrite (move_eats c _ new_head Hnew Hfree Heat).
    destruct (create_food _ _ _ _) as [[food' tape'] | e]; [| reflexivity].
    eexists. split; [reflexivity |]. simpl. auto.
  - intros Hne.
    destruct (move_slides c _ new_head Hnew Hfree Hne) as (tail & Hlast & ->).
    eexists. split; [reflexivity |]. simpl. split_and!; try reflexivity.
    destruct (calculate_new_head_nonempty _ _ _ Hnew) as (head & rest & ->).
    by rewrite length_removelast_cons.
Qed.

Lemma tick_length_score_witness :
  ∃ c', tick scenario_eat (-1) = Ok c' ∧
        snake (vars c') = [(5, 6); (5, 5); (5, 4); (5, 3)] ∧
        score (vars c') = 1.
Proof.
  assert (Hq : -1 ≠ ord "q"%char) by discriminate.
  destruct (tick_length_score scenario_eat (-1) (5, 6) Hq eq_refl eq_refl)
    as [Heat _].
  specialize (Heat eq_refl).
  destruct Heat as (c' & Htick & _ & Hsnake & _ & Hscore & _).
  exists c'. split; [exact Htick |]. split; [exact Hsnake | exact Hscore].
Defined.

(** C3.  In a tick whose move collides, the tick ends in the game-over
    screen, which shows the score the game had ("Final Score: n"); the
    snake, the score, the food, the unread draws and the fixed locals are
    what they were before the tick. *)
Theorem tick_collision_keeps_state (c : config) (next_key : Z) (new_head : cell) :
  next_key ≠ ord "q"%char →
  calculate_new_head (snake (vars c)) (steer next_key (direction (vars c)))
    = Ok new_head →
  collision (h (locals c)) (w (locals c)) new_head (snake (vars c)) = true →
  ∃ c', tick c next_key = Ok c' ∧
        at_phase c' = GameOver ∧
        snake (vars c') = snake (vars c) ∧
        score (vars c') = score (vars c) ∧
        food (vars c') = food (vars c) ∧
        rng c' = rng c ∧
        locals c' = locals c ∧
        log c' = log c ++ game_over_screen (sh (locals c)) (sw (locals c))
                                           (score (vars c)) ∧
        stdscr_addstr (sh (locals c) `div` 2 - 2 + 1) (sw (locals c) `div` 2 - 10)
          ("Final Score: " +:+ pretty (score (vars c))) ∈ log c'.
Proof.
  intros Hq Hnew Hhit. rewrite tick_moves by exact Hq.
  rewrite (move_collides c _ new_head Hnew Hhit).
  eexists. split; [reflexivity |]. simpl. split_and!; try reflexivity.
  apply elem_of_app. right. apply final_score_shown.
Qed.

Lemma tick_collision_keeps_state_witness :
  ∃ c', tick scenario_wall (-1) = Ok c' ∧
        at_phase c' = GameOver ∧
        snake (vars c') = [(1, 5); (2, 5); (3, 5)] ∧
        score (vars c') = 4 ∧
        stdscr_addstr 11 30 "Final Score: 4" ∈ log c'.
Proof.
  assert (Hq : -1 ≠ ord "q"%char) by discriminate.
  destruct (tick_collision_keeps_state scenario_wall (-1) (0, 5) Hq eq_refl eq_refl)
    as (c' & Htick & Hphase & Hsnake & Hscore & _ & _ & _ & _ & Hshown).
  exists c'. split_and!; [exact Htick | exact Hphase | exact Hsnake | exact Hscore |].
  exact Hshown.
Defined.

(** ** The collision test and what it reports *)

Lemma move_free_keeps_playing (c : config) (d : Z) (new_head : cell) (c' : config) :
  calculate_new_head (snake (vars c)) d = Ok new_head →
  collision (h (locals c)) (w (locals c)) new_head (snake (vars c)) = false →
  move c d = Ok c' →
  at_phase c' = Playing.
Proof.
  intros Hnew Hfree.
  destruct (decide (new_head = food (vars c))) as [Heat | Hne].
  - rewrite (move_eats c d new_head Hnew Hfree Heat).
    destruct (create_food _ _ _ _) as [[food' tape'] | e]; [| discriminate].
    by intros [= <-].
  - destruct (move_slides c d new_head Hnew Hfree Hne) as (tail & _ & ->).
    by intros [= <-].
Qed.

(** C2 as the code has it.  A move ends in the game-over screen exactly
    when the new head is on a border row or column (row 0, row h-1,
    column 0, column w-1) or is a cell of the current snake.  The border
    tests come first and, when one holds, decide the collision whatever
    the snake is.  The outcome is one and the same game-over state and
    screen for the wall, for the snake and for both: the kind of collision
    is not part of it. *)
Theorem move_collision_iff (c : config) (d : Z) (new_head : cell) :
  calculate_new_head (snake (vars c)) d = Ok new_head →
  ((∃ c', move c d = Ok c' ∧ at_phase c' = GameOver) ↔
   on_border (h (locals c)) (w (locals c)) new_head ∨ new_head ∈ snake (vars c)) ∧
  (on_border (h (locals c)) (w (locals c)) new_head →
   ∀ cells, collision (h (locals c)) (w (locals c)) new_head cells = true) ∧
  (on_border (h (locals c)) (w (locals c)) new_head ∨ new_head ∈ snake (vars c) →
   move c d =
     Ok {| locals := locals c;
           at_phase := GameOver;
           vars := Game (snake (vars c)) d (food (vars c)) (score (vars c));
           rng := rng c;
           log := log c ++ game_over_screen (sh (locals c)) (sw (locals c))
                                            (score (vars c)) |}).
Proof.
  intros Hnew. split_and!.
  - split.
    + intros (c' & Hmove & Hphase). apply collision_spec.
      destruct (collision _ _ _ _) eqn:Hhit; [reflexivity |].
      rewrite (move_free_keeps_playing c d new_head c' Hnew Hhit Hmove) in Hphase.
      discriminate.
    + intros Hhit. apply collision_spec in Hhit.
      rewrite (move_collides c d new_head Hnew Hhit). by eexists.
  - intros Hborder cells. apply collision_spec. by left.
  - intros Hhit. apply collision_spec in Hhit.
    exact (move_collides c d new_head Hnew Hhit).
Qed.

Lemma move_collision_iff_witness :
  ∃ c', move scenario_corner KEY_LEFT = Ok c' ∧ at_phase c' = GameOver.
Proof.
  destruct (move_collision_iff scenario_corner KEY_LEFT (1, 4) eq_refl)
    as ([_ Hhit] & _ & _).
  apply Hhit. right. apply (bool_decide_unpack _). vm_compute. exact I.
Defined.

(** C2 as stated fails: nothing the program puts out tells a wall
    collision from a self collision.  In [scenario_corner] the move up
    runs into the border and the move left into the snake, and both end
    in the same phase with the same calls logged. *)
Lemma collision_kind_not_reported :
  ¬ ∃ is_wall : phase → list call → bool,
      ∀ (c : config) (d : Z) (new_head : cell) (c' : config),
        calculate_new_head (snake (vars c)) d = Ok new_head →
        move c d = Ok c' →
        (on_border (h (locals c)) (w (locals c)) new_head →
         is_wall (at_phase c') (log c') = true) ∧
        (¬ on_border (h (locals c)) (w (locals c)) new_head →
         new_head ∈ snake (vars c) →
         is_wall (at_phase c') (log c') = false).
Proof.
  intros (is_wall & Hreport).
  destruct (Hreport scenario_corner KEY_UP (0, 5) _ eq_refl eq_refl) as [Hwall _].
  destruct (Hreport scenario_corner KEY_LEFT (1, 4) _ eq_refl eq_refl) as [_ Hself].
  assert (Hw : is_wall GameOver (game_over_screen 10 30 1) = true).
  { apply Hwall. left. reflexivity. }
  assert (Hs : is_wall GameOver (game_over_screen 10 30 1) = false).
  { apply Hself.
    - unfold on_border. simpl. lia.
    - apply (bool_decide_unpack _). vm_compute. exact I. }
  congruence.
Qed.

(** ** Start-up *)

Lemma main_small_cases (sh sw : Z) (tape : list Z) :
  sh < 10 ∨ sw < 30 →
  main sh sw tape =
    if addstr_raises sh sw 0 0 "Terminal too small. Resize and try again."
    then Raise CursesError
    else Ok (TooSmall [curs_set 0; stdscr_timeout 100; stdscr_clear;
                       stdscr_addstr 0 0 "Terminal too small. Resize and try again.";
                       stdscr_refresh; time_sleep 2]).
Proof.
  intros Hsmall. unfold main.
  destruct (Z.ltb_spec sh 10), (Z.ltb_spec sw 30); simpl; try reflexivity; lia.
Qed.

(** The 41 characters of the message fit a screen of more than 41 cells. *)
Lemma too_small_message_fits (sh sw : Z) :
  addstr_raises sh sw 0 0 "Terminal too small. Resize and try again." = false ↔
  0 < sh ∧ 0 < sw ∧ 41 < sh * sw.
Proof.
  unfold addstr_raises.
  change (Z.of_nat (String.length "Terminal too small. Resize and try again."))
    with 41.
  rewrite orb_false_iff, negb_false_iff, andb_false_iff, !andb_true_iff.
  rewrite Z.ltb_ge, Z.leb_gt, !Z.ltb_lt, !Z.leb_le. lia.
Qed.

Lemma main_too_small (sh sw : Z) (tape : list Z) :
  sh < 10 ∨ sw < 30 →
  0 < sh → 0 < sw → 41 < sh * sw →
  main sh sw tape =
    Ok (TooSmall [curs_set 0; stdscr_timeout 100; stdscr_clear;
                  stdscr_addstr 0 0 "Terminal too small. Resize and try again.";
                  stdscr_refresh; time_sleep 2]).
Proof.
  intros Hsmall Hsh Hsw Hcells. rewrite main_small_cases by exact Hsmall.
  by rewrite (proj2 (too_small_message_fits sh sw)).
Qed.

Lemma main_tiny (sh sw : Z) (tape : list Z) :
  sh * sw ≤ 41 →
  main sh sw tape = Raise CursesError.
Proof.
  intros Hcells.
  assert (Hsmall : sh < 10 ∨ sw < 30) by nia.
  rewrite main_small_cases by exact Hsmall.
  destruct (addstr_raises sh sw 0 0 _) eqn:Hfit; [reflexivity |].
  apply too_small_message_fits in Hfit. lia.
Qed.

Lemma main_large (sh sw : Z) (tape : list Z) :
  10 ≤ sh → 30 ≤ sw →
  main sh sw tape =
    match create_food (sh - 2) (sw - 2)
            (spawn ((sh - 2) `div` 2) ((sw - 2) `div` 4)) tape with
    | Ok (food, tape') =>
        Ok (Started
              {| locals := Env sh sw (sh - 2) (sw - 2)
                               ((sw - 2) `div` 4) ((sh - 2) `div` 2) 100 100;
                 at_phase := Instructions;
                 vars := Game (spawn ((sh - 2) `div` 2) ((sw - 2) `div` 4))
                              KEY_RIGHT food 0;
                 rng := tape';
                 log := [curs_set 0; stdscr_timeout 100] ++
                        [newwin (sh - 2) (sw - 2) 1 1; win_keypad 1; win_timeout 100] ++
                        [win_addch food.1 food.2 ACS_DIAMOND] ++
                        [stdscr_box;
                         stdscr_addstr 0 (sw `div` 2 - 5) " SNAKE GAME ";
                         stdscr_refresh] ++
                        show_instructions sh sw |})
    | Raise e => Raise e
    end.
Proof.
  intros Hsh Hsw. unfold main.
  destruct (Z.ltb_spec sh 10); [lia |]. destruct (Z.ltb_spec sw 30); [lia |]. simpl.
  destruct (create_food _ _ _ _) as [[food tape'] | e]; reflexivity.
Qed.

Lemma main_started (sh sw : Z) (tape : list Z) (c0 : config) :
  main sh sw tape = Ok (Started c0) →
  10 ≤ sh ∧ 30 ≤ sw ∧
  locals c0 = Env sh sw (sh - 2) (sw - 2) ((sw - 2) `div` 4) ((sh - 2) `div` 2) 100 100 ∧
  at_phase c0 = Instructions ∧
  snake (vars c0) = spawn ((sh - 2) `div` 2) ((sw - 2) `div` 4) ∧
  direction (vars c0) = KEY_RIGHT ∧
  score (vars c0) = 0.
Proof.
  intros Hmain.
  destruct (Z.lt_ge_cases sh 10) as [Hsh | Hsh].
  { rewrite main_small_cases in Hmain by auto.
    destruct (addstr_raises _ _ _ _ _); discriminate. }
  destruct (Z.lt_ge_cases sw 30) as [Hsw | Hsw].
  { rewrite main_small_cases in Hmain by auto.
    destruct (addstr_raises _ _ _ _ _); discriminate. }
  rewrite main_large in Hmain by done.
  destruct (create_food _ _ _ _) as [[food tape'] | e]; [| discriminate].
  injection Hmain as <-. simpl. split_and!; done.
Qed.

Lemma spawn_ok (e : env) :
  locals_ok e → snake_ok (h e) (w e) (spawn (snake_y e) (snake_x e)).
Proof.
  intros (Hsh & Hsw & Hh & Hw & Hx & Hy & _). unfold snake_ok, spawn. split.
  - repeat apply NoDup_cons_2; rewrite ?elem_of_cons, ?elem_of_nil;
      try apply NoDup_nil_2; intros H;
      repeat destruct H as [H | H]; try (injection H; lia); exact H.
  - repeat apply Forall_cons_2; try apply Forall_nil_2;
      unfold interior; simpl; rewrite Hx, Hy, Hh, Hw;
      Z.to_euclidean_division_equations; lia.
Qed.

(** The top-left interior cell is never a spawn cell. *)
Lemma spawn_leaves_room (e : env) :
  locals_ok e →
  interior (h e) (w e) (1, 1) ∧ (1, 1) ∉ spawn (snake_y e) (snake_x e).
Proof.
  intros (Hsh & Hsw & Hh & Hw & Hx & Hy & _). split.
  - unfold interior. simpl. lia.
  - unfold spawn. rewrite !elem_of_cons, elem_of_nil. rewrite Hy, Hh.
    intros H. repeat destruct H as [H | H]; try exact H;
      injection H; intros; Z.to_euclidean_division_equations; lia.
Qed.

Lemma main_locals_ok (sh sw : Z) (tape : list Z) (c0 : config) :
  main sh sw tape = Ok (Started c0) → locals_ok (locals c0).
Proof.
  intros (Hsh & Hsw & -> & _)%main_started. unfold locals_ok. simpl. auto 10.
Qed.

(** ** The invariant of the snake *)

Lemma removelast_snoc {A} (l : list A) :
  l = [] ∨ ∃ t, last l = Some t ∧ l = removelast l ++ [t].
Proof.
  destruct (last l) as [t |] eqn:Hlast.
  - right. exists t. split; [reflexivity |].
    apply last_Some in Hlast as [l' ->]. by rewrite removelast_last.
  - left. by apply last_None.
Qed.

Lemma snake_ok_removelast (h w : Z) (snake : list cell) :
  snake_ok h w snake → snake_ok h w (removelast snake).
Proof.
  intros [Hdup Hin].
  destruct (removelast_snoc snake) as [-> | (t & _ & Heq)]; [by split |].
  rewrite Heq in Hdup, Hin.
  apply NoDup_app in Hdup as (Hdup & _ & _).
  apply Forall_app in Hin as [Hin _]. by split.
Qed.

Lemma elem_of_removelast (snake : list cell) (c : cell) :
  c ∈ removelast snake → c ∈ snake.
Proof.
  destruct (removelast_snoc snake) as [-> | (t & _ & Heq)]; [done |].
  intros Hc. rewrite Heq. apply elem_of_app. by left.
Qed.

(** A head that stays off the border after one step from the interior is
    in the interior. *)
Lemma new_head_interior (h w : Z) (head : cell) (rest : list cell) (d : Z)
    (new_head : cell) :
  interior h w head →
  calculate_new_head (head :: rest) d = Ok new_head →
  ¬ on_border h w new_head →
  interior h w new_head.
Proof.
  intros [Hr Hc] Hnew%calculate_new_head_near Hoff.
  unfold on_border in Hoff. unfold interior.
  destruct Hnew as [-> | [[-> H] | [-> H]]]; lia.
Qed.

Lemma move_keeps_snake_ok (c : config) (d : Z) (c' : config) :
  snake_ok (h (locals c)) (w (locals c)) (snake (vars c)) →
  move c d = Ok c' →
  locals c' = locals c ∧
  snake_ok (h (locals c)) (w (locals c)) (snake (vars c')).
Proof.
  intros Hok Hmove.
  destruct (calculate_new_head (snake (vars c)) d) as [new_head | e] eqn:Hnew;
    [| unfold move in Hmove; rewrite Hnew in Hmove; discriminate].
  destruct (collision (h (locals c)) (w (locals c)) new_head (snake (vars c)))
    eqn:Hhit.
  { rewrite (move_collides c d new_head Hnew Hhit) in Hmove.
    injection Hmove as <-. by split. }
  pose proof Hhit as [Hoff Hfresh]%collision_free.
  assert (Hin : interior (h (locals c)) (w (locals c)) new_head).
  { destruct (calculate_new_head_nonempty _ _ _ Hnew) as (head & rest & Hs).
    rewrite Hs in Hnew, Hok. destruct Hok as [_ Hall].
    apply Forall_cons in Hall as [Hhead _].
    exact (new_head_interior _ _ head rest d new_head Hhead Hnew Hoff). }
  destruct (decide (new_head = food (vars c))) as [Heat | Hne].
  - rewrite (move_eats c d new_head Hnew Hhit Heat) in Hmove.
    destruct (create_food _ _ _ _) as [[food' tape'] | e]; [| discriminate].
    injection Hmove as <-. simpl. split; [reflexivity |].
    destruct Hok as [Hdup Hall]. split.
    + by apply NoDup_cons_2.
    + by apply Forall_cons_2.
  - destruct (move_slides c d new_head Hnew Hhit Hne) as (tail & _ & Heq).
    rewrite Heq in Hmove. injection Hmove as <-. simpl. split; [reflexivity |].
    destruct (snake_ok_removelast _ _ _ Hok) as [Hdup Hall]. split.
    + apply NoDup_cons_2; [| exact Hdup].
      intros Hc. apply Hfresh. by apply elem_of_removelast.
    + by apply Forall_cons_2.
Qed.

Lemma restart_spec (c : config) :
  restart c =
    match create_food (h (locals c)) (w (locals c))
            (spawn (snake_y (locals c)) (snake_x (locals c))) (rng c) with
    | Ok (food, tape') =>
        Ok {| locals := locals c;
              at_phase := Playing;
              vars := Game (spawn (snake_y (locals c)) (snake_x (locals c)))
                           KEY_RIGHT food 0;
              rng := tape';
              log := log c ++ [win_clear; win_addch food.1 food.2 ACS_DIAMOND]
                           ++ loop_top (locals c) 0 |}
    | Raise e => Raise e
    end.
Proof.
  unfold restart. destruct (create_food _ _ _ _) as [[food tape'] | e]; reflexivity.
Qed.

Lemma step_keeps_ok (c : config) (slot : option Z) (c' : config) :
  config_ok c → step c slot = Ok c' →
  locals c' = locals c ∧ config_ok c'.
Proof.
  intros [Hloc Hsnake] Hstep. unfold config_ok.
  cut (locals c' = locals c ∧
       snake_ok (h (locals c)) (w (locals c)) (snake (vars c'))).
  { intros [-> ?]. auto. }
  unfold step in Hstep. destruct (at_phase c).
  - destruct (getch _ slot); injection Hstep as <-; by split.
  - destruct (getch _ slot) as [next_key |]; [| injection Hstep as <-; by split].
    unfold tick in Hstep.
    destruct (next_key =? -1); [by eapply move_keeps_snake_ok |].
    destruct (next_key =? ord "q"%char); [injection Hstep as <-; by split |].
    by eapply move_keeps_snake_ok.
  - destruct (getch _ slot) as [key |]; [| injection Hstep as <-; by split].
    destruct (game_over key) as [[|] |].
    + rewrite restart_spec in Hstep.
      destruct (create_food _ _ _ _) as [[food tape'] | e]; [| discriminate].
      injection Hstep as <-. simpl. split; [reflexivity |]. by apply spawn_ok.
    + injection Hstep as <-; by split.
    + injection Hstep as <-; by split.
  - injection Hstep as <-. by split.
Qed.

Lemma run_keeps_ok (slots : list (option Z)) (c c' : config) :
  config_ok c → run c slots = Ok c' →
  locals c' = locals c ∧ config_ok c'.
Proof.
  revert c. induction slots as [| slot slots IH]; intros c Hok; simpl.
  - intros [= <-]. by split.
  - destruct (step c slot) as [c1 | e] eqn:Hstep; [| discriminate]. simpl.
    destruct (step_keeps_ok c slot c1 Hok Hstep) as [Hloc Hok1].
    intros Hrun. destruct (IH c1 Hok1 Hrun) as [Hloc' Hok'].
    split; [congruence | exact Hok'].
Qed.

Lemma main_config_ok (sh sw : Z) (tape : list Z) (c0 : config) :
  main sh sw tape = Ok (Started c0) → config_ok c0.
Proof.
  intros Hmain. pose proof (main_locals_ok _ _ _ _ Hmain) as Hloc.
  split; [exact Hloc |].
  apply main_started in Hmain as (_ & _ & Hl & _ & Hs & _).
  rewrite Hs. pose proof (spawn_ok _ Hloc) as Hspawn.
  rewrite Hl in Hspawn |- *. exact Hspawn.
Qed.

Lemma reachable_ok (sh sw : Z) (c : config) :
  reachable sh sw c → config_ok c.
Proof.
  intros (tape & c0 & slots & Hmain & Hrun).
  by apply (run_keeps_ok slots c0 c (main_config_ok _ _ _ _ Hmain)).
Qed.

Lemma tick_keeps_snake_ok (c : config) (next_key : Z) (c' : config) :
  snake_ok (h (locals c)) (w (locals c)) (snake (vars c)) →
  tick c next_key = Ok c' →
  snake_ok (h (locals c)) (w (locals c)) (snake (vars c')).
Proof.
  intros Hok. unfold tick.
  destruct (next_key =? -1); [intros Hm; by eapply move_keeps_snake_ok |].
  destruct (next_key =? ord "q"%char); [by intros [= <-] |].
  intros Hm; by eapply move_keeps_snake_ok.
Qed.

(** C7.  The snake [main] spawns has exactly three cells, pairwise
    distinct and strictly inside the interior; a tick keeps the snake's
    cells pairwise distinct and inside the interior; hence in every state
    reached while playing the snake's cells are pairwise distinct and none
    is on a border row or column. *)
Theorem snake_invariant :
  (∀ sh sw tape c0,
     main sh sw tape = Ok (Started c0) →
     length (snake (vars c0)) = 3%nat ∧
     snake_ok (h (locals c0)) (w (locals c0)) (snake (vars c0))) ∧
  (∀ c next_key c',
     snake_ok (h (locals c)) (w (locals c)) (snake (vars c)) →
     tick c next_key = Ok c' →
     snake_ok (h (locals c')) (w (locals c')) (snake (vars c'))) ∧
  (∀ sh sw c,
     reachable sh sw c → at_phase c = Playing →
     snake_ok (h (locals c)) (w (locals c)) (snake (vars c))).
Proof.
  split_and!.
  - intros sh sw tape c0 Hmain. split.
    + apply main_started in Hmain as (_ & _ & _ & _ & -> & _). reflexivity.
    + by apply (main_config_ok sh sw tape).
  - intros c next_key c' Hok Htick.
    assert (Hloc : locals c' = locals c).
    { unfold tick in Htick.
      destruct (next_key =? -1); [by eapply move_keeps_snake_ok |].
      destruct (next_key =? ord "q"%char); [by injection Htick as <- |].
      by eapply move_keeps_snake_ok. }
    rewrite Hloc. by apply (tick_keeps_snake_ok c next_key).
  - intros sh sw c Hreach _. by apply (reachable_ok sh sw).
Qed.

Lemma snake_invariant_witness :
  ∃ c, reachable 10 30 c ∧ at_phase c = Playing ∧
       length (snake (vars c)) = 4%nat ∧
       snake_ok (h (locals c)) (w (locals c)) (snake (vars c)).
Proof.
  destruct snake_invariant as (_ & _ & Hinv).
  destruct (main 10 30 [3; 7; 5; 5]) as [[calls | c0] | e] eqn:Hmain;
    try (vm_compute in Hmain; discriminate Hmain).
  destruct (run c0 [None; None]) as [c | e] eqn:Hrun.
  2: { vm_compute in Hmain. injection Hmain as <-.
       vm_compute in Hrun. discriminate Hrun. }
  assert (Hreach : reachable 10 30 c).
  { exists [3; 7; 5; 5], c0, [None; None]. by split. }
  assert (Hc : at_phase c = Playing ∧ length (snake (vars c)) = 4%nat).
  { vm_compute in Hmain. injection Hmain as <-.
    vm_compute in Hrun. injection Hrun as <-. by split. }
  destruct Hc as [Hphase Hlen].
  exists c. split_and!; [exact Hreach | exact Hphase | exact Hlen |].
  exact (Hinv 10 30 c Hreach Hphase).
Defined.

(** ** Game over: restart and quit *)

(** C8.  In every game-over state reached from [main], the key 'r' leads
    (as soon as create_food returns) to Playing with score 0, the
    three-cell snake of the initial spawn, direction KEY_RIGHT and a new
    food cell outside the snake and inside the interior; create_food can
    only fail to return by running out of draws that all hit the snake.
    The key 'q' ends the program and changes nothing else. *)
Theorem game_over_restart_quit
    (sh sw : Z) (tape : list Z) (c0 : config) (slots : list (option Z)) (c : config) :
  main sh sw tape = Ok (Started c0) →
  run c0 slots = Ok c →
  at_phase c = GameOver →
  match create_food (h (locals c)) (w (locals c)) (snake (vars c0)) (rng c) with
  | Ok (food', tape') =>
      ∃ c', step c (Some (ord "r"%char)) = Ok c' ∧
            at_phase c' = Playing ∧
            score (vars c') = 0 ∧
            snake (vars c') = snake (vars c0) ∧
            length (snake (vars c')) = 3%nat ∧
            direction (vars c') = KEY_RIGHT ∧
            food (vars c') = food' ∧
            (food' ∉ snake (vars c')) ∧
            interior (h (locals c)) (w (locals c)) food' ∧
            rng c' = tape' ∧
            locals c' = locals c
  | Raise e =>
      step c (Some (ord "r"%char)) = Raise e ∧
      e = NoMoreDraws ∧
      Forall (λ x, x ∈ snake (vars c0))
             (candidates (h (locals c)) (w (locals c)) (rng c))
  end ∧
  step c (Some (ord "q"%char)) =
    Ok {| locals := locals c; at_phase := Terminated; vars := vars c;
          rng := rng c; log := log c |}.
Proof.
  intros Hmain Hrun Hphase.
  pose proof (main_config_ok _ _ _ _ Hmain) as Hok0.
  destruct (run_keeps_ok slots c0 c Hok0 Hrun) as [Hloc [Hlocok _]].
  assert (Hspawn : snake (vars c0) = spawn (snake_y (locals c)) (snake_x (locals c))).
  { apply main_started in Hmain as (_ & _ & Hl & _ & -> & _).
    rewrite Hloc, Hl. reflexivity. }
  split.
  - unfold step. rewrite Hphase. simpl getch.
    change (game_over (ord "r"%char)) with (Some true). cbv iota.
    rewrite restart_spec, <- Hspawn.
    destruct (create_food _ _ _ _) as [[food' tape'] | e] eqn:Hfood.
    + eexists. split; [reflexivity |]. simpl.
      destruct (create_food_sound _ _ _ _ _ _ Hfood) as [Hfree Hin].
      split_and!; try done. by rewrite Hspawn.
    + split; [reflexivity |].
      destruct (create_food_raises _ _ _ _ _ Hfood) as [[_ Hsmall] | Hdraws];
        [| exact Hdraws].
      destruct Hlocok as (? & ? & ? & ? & _). lia.
  - unfold step. rewrite Hphase. reflexivity.
Qed.

Lemma game_over_restart_quit_witness :
  ∃ c c',
    reachable 10 30 c ∧ at_phase c = GameOver ∧
    step c (Some (ord "r"%char)) = Ok c' ∧
    at_phase c' = Playing ∧ score (vars c') = 0 ∧
    snake (vars c') = [(4, 7); (4, 6); (4, 5)] ∧
    direction (vars c') = KEY_RIGHT.
Proof.
  pose (tape := [0; 0; 9; 9]).
  pose (slots := [None; Some KEY_UP; None; None; None]).
  destruct (main 10 30 tape) as [[calls | c0] | e] eqn:Hmain;
    try (vm_compute in Hmain; discriminate Hmain).
  destruct (run c0 slots) as [c | e] eqn:Hrun.
  2: { vm_compute in Hmain. injection Hmain as <-.
       vm_compute in Hrun. discriminate Hrun. }
  assert (Hfacts : at_phase c = GameOver ∧
                   snake (vars c0) = [(4, 7); (4, 6); (4, 5)] ∧
                   create_food (h (locals c)) (w (locals c)) (snake (vars c0)) (rng c)
                     = Ok ((4, 10), [])).
  { vm_compute in Hmain. injection Hmain as <-.
    vm_compute in Hrun. injection Hrun as <-. by split_and!. }
  destruct Hfacts as (Hphase & Hsnake0 & Hfood).
  destruct (game_over_restart_quit 10 30 tape c0 slots c Hmain Hrun Hphase)
    as [Hr _].
  rewrite Hfood in Hr.
  destruct Hr as (c' & Hstep & Hplay & Hscore & Hsnake & _ & Hdir & _).
  exists c, c'. split_and!; try done.
  - by exists tape, c0, slots.
  - by rewrite Hsnake.
Defined.

(** ** Entering the game *)

Lemma instructions_step (c0 : config) (slot : option Z) :
  at_phase c0 = Instructions →
  0 ≤ stdscr_delay (locals c0) →
  ∃ c, step c0 slot = Ok c ∧ at_phase c = Playing.
Proof.
  intros Hphase Hdelay. unfold step. rewrite Hphase.
  assert (Hget : ∃ key, getch (stdscr_delay (locals c0)) slot = Some key).
  { unfold getch. destruct slot as [key |]; [by eexists |].
    destruct (Z.ltb_spec (stdscr_delay (locals c0)) 0); [lia | by eexists]. }
  destruct Hget as [key ->]. by eexists.
Qed.

(** What does hold of the size check.  The program gets to Playing
    exactly when the terminal has at least 10 rows and 30 columns.  Below
    that, on a terminal of more than 41 cells, [main] writes "Terminal too
    small. Resize and try again.", sleeps two seconds and returns, with
    no game state ever created.  At or above it, on every tape of draws
    one round of which misses the spawned snake, [main] reaches the
    instructions screen and the next poll slot starts the game. *)
Lemma playing_iff_large_enough (sh sw : Z) :
  (enters_playing sh sw ↔ 10 ≤ sh ∧ 30 ≤ sw) ∧
  (¬ (10 ≤ sh ∧ 30 ≤ sw) →
   0 < sh → 0 < sw → 41 < sh * sw →
   ∀ tape,
     main sh sw tape =
       Ok (TooSmall [curs_set 0; stdscr_timeout 100; stdscr_clear;
                     stdscr_addstr 0 0 "Terminal too small. Resize and try again.";
                     stdscr_refresh; time_sleep 2])) ∧
  (10 ≤ sh ∧ 30 ≤ sw →
   ∀ tape,
     (∃ x, x ∈ candidates (sh - 2) (sw - 2) tape ∧
           x ∉ spawn ((sh - 2) `div` 2) ((sw - 2) `div` 4)) →
     ∃ c0, main sh sw tape = Ok (Started c0) ∧
           at_phase c0 = Instructions ∧
           ∀ slot, ∃ c, step c0 slot = Ok c ∧ at_phase c = Playing).
Proof.
  assert (Hstart : 10 ≤ sh ∧ 30 ≤ sw →
    ∀ tape,
      (∃ x, x ∈ candidates (sh - 2) (sw - 2) tape ∧
            x ∉ spawn ((sh - 2) `div` 2) ((sw - 2) `div` 4)) →
      ∃ c0, main sh sw tape = Ok (Started c0) ∧
            at_phase c0 = Instructions ∧
            ∀ slot, ∃ c, step c0 slot = Ok c ∧ at_phase c = Playing).
  { intros [Hsh Hsw] tape Hdraw.
    destruct (create_food_complete (sh - 2) (sw - 2)
                (spawn ((sh - 2) `div` 2) ((sw - 2) `div` 4)) tape)
      as (food & tape' & Hfood); [apply Z.ltb_ge; lia | apply Z.ltb_ge; lia | done |].
    rewrite main_large, Hfood by done.
    eexists. split; [reflexivity |]. split; [reflexivity |].
    intros slot. apply instructions_step; [reflexivity | simpl; lia]. }
  split_and!.
  - split.
    + intros (c & (tape & c0 & slots & Hmain & _) & _).
      apply main_started in Hmain. tauto.
    + intros Hlarge.
      pose (e := Env sh sw (sh - 2) (sw - 2) ((sw - 2) `div` 4) ((sh - 2) `div` 2) 100 100).
      assert (He : locals_ok e) by (unfold locals_ok; simpl; tauto).
      destruct (spawn_leaves_room e He) as [_ Hroom]. simpl in Hroom.
      destruct (Hstart Hlarge [0; 0]) as (c0 & Hmain & _ & Hstep).
      { exists (1, 1). split; [| exact Hroom]. simpl.
        rewrite !randint_zero. left. }
      destruct (Hstep None) as (c & Hc & Hphase).
      exists c. split; [| exact Hphase].
      exists [0; 0], c0, [None]. split; [exact Hmain |]. simpl. by rewrite Hc.
  - intros Hsmall Hsh Hsw Hcells tape. apply main_too_small; lia.
  - exact Hstart.
Qed.

Lemma playing_iff_large_enough_witness :
  enters_playing 24 80 ∧
  ¬ enters_playing 9 80 ∧
  main 9 80 [] =
    Ok (TooSmall [curs_set 0; stdscr_timeout 100; stdscr_clear;
                  stdscr_addstr 0 0 "Terminal too small. Resize and try again.";
                  stdscr_refresh; time_sleep 2]).
Proof.
  split_and!.
  - apply (playing_iff_large_enough 24 80). lia.
  - intros H. apply (playing_iff_large_enough 9 80) in H. lia.
  - apply (playing_iff_large_enough 9 80); lia.
Defined.

(** C9 fails on the code.  On a terminal of 2 rows and 20 columns the
    size check sends [main] to the too-small branch, where the
    41-character message written at (0, 0) does not fit the 40 cells of
    the screen: [stdscr.addstr] raises curses.error, the refresh and the
    two-second sleep are not run, and [main] ends by that exception
    instead of returning ([main_tiny]: so it is on every terminal of at
    most 41 cells). *)
Theorem too_small_message_crashes_tiny_terminal :
  addstr_raises 2 20 0 0 "Terminal too small. Resize and try again." = true ∧
  (∀ tape, main 2 20 tape = Raise CursesError) ∧
  (∀ tape calls, main 2 20 tape ≠ Ok (TooSmall calls)).
Proof.
  split; [reflexivity |]. split.
  - intros tape. apply main_tiny. lia.
  - intros tape calls. rewrite main_tiny by lia. discriminate.
Qed.

(** ** The instructions screen *)

(** A window left in blocking mode does wait for a key. *)
Lemma blocking_window_waits (c0 : config) :
  at_phase c0 = Instructions →
  stdscr_delay (locals c0) < 0 →
  step c0 None = Ok c0.
Proof.
  intros Hphase Hdelay. unfold step. rewrite Hphase. unfold getch.
  destruct (Z.ltb_spec (stdscr_delay (locals c0)) 0); [reflexivity | lia].
Qed.

(** C4 fails on the code.  [stdscr.timeout(100)] (line 18) is in force
    when show_instructions calls [stdscr.getch()], so on an 80x24 terminal
    with no key pressed the call returns -1 when the first poll slot ends
    and the game starts: the instructions screen does not wait. *)
Theorem instructions_screen_does_not_wait :
  ∃ c0 c,
    main 24 80 [0; 0] = Ok (Started c0) ∧
    at_phase c0 = Instructions ∧
    stdscr_delay (locals c0) = 100 ∧
    getch (stdscr_delay (locals c0)) None = Some (-1) ∧
    run c0 [None] = Ok c ∧
    at_phase c = Playing.
Proof.
  eexists _, _. split; [vm_compute; reflexivity |].
  split; [reflexivity |]. split; [reflexivity |]. split; [reflexivity |].
  split; [vm_compute; reflexivity | reflexivity].
Qed.

(** * Properties of whole runs *)

(** ** The paths through [step] *)

Lemma steer_no_key (d : Z) : steer (-1) d = d.
Proof. reflexivity. Qed.

Lemma move_transition (c : config) (key : Z) (c' : config) :
  at_phase c = Playing →
  move c (steer key (direction (vars c))) = Ok c' →
  transition c c'.
Proof.
  intros Hphase Hmove.
  destruct (calculate_new_head (snake (vars c)) (steer key (direction (vars c))))
    as [new_head | e] eqn:Hnew;
    [| unfold move in Hmove; rewrite Hnew in Hmove; discriminate].
  destruct (collision (h (locals c)) (w (locals c)) new_head (snake (vars c)))
    eqn:Hhit.
  { rewrite (move_collides c _ new_head Hnew Hhit) in Hmove.
    injection Hmove as <-. by eapply collides. }
  destruct (decide (new_head = food (vars c))) as [Heat | Hne].
  - rewrite (move_eats c _ new_head Hnew Hhit Heat) in Hmove.
    destruct (create_food _ _ _ _) as [[food' tape'] | e] eqn:Hfood; [| discriminate].
    injection Hmove as <-. by eapply eats.
  - destruct (move_slides c _ new_head Hnew Hhit Hne) as (tail & Hlast & Heq).
    rewrite Heq in Hmove. injection Hmove as <-. by eapply slides.
Qed.

Lemma step_transition (c : config) (slot : option Z) (c' : config) :
  step c slot = Ok c' → transition c c'.
Proof.
  unfold step. destruct (at_phase c) eqn:Hphase.
  - destruct (getch _ slot); intros [= <-]; [by apply starts | apply waits].
  - destruct (getch _ slot) as [next_key |]; [| intros [= <-]; apply waits].
    unfold tick. destruct (Z.eqb_spec next_key (-1)) as [-> | Hkey].
    + rewrite <- (steer_no_key (direction (vars c))) at 1.
      by apply move_transition.
    + destruct (next_key =? ord "q"%char); [intros [= <-]; apply quits; auto |].
      replace (process_key_input next_key (direction (vars c)))
        with (steer next_key (direction (vars c))).
      * by apply move_transition.
      * unfold steer. by rewrite (proj2 (Z.eqb_neq _ _) Hkey).
  - destruct (getch _ slot) as [key |]; [| intros [= <-]; apply waits].
    destruct (game_over key) as [[|] |].
    + rewrite restart_spec.
      destruct (create_food _ _ _ _) as [[food' tape'] | e] eqn:Hfood; [| discriminate].
      intros [= <-]. by eapply restarts.
    + intros [= <-]. apply quits. auto.
    + intros [= <-]. apply waits.
  - intros [= <-]. apply waits.
Qed.

(** A property [main] establishes and every transition keeps holds in
    every reachable state. *)
Lemma reachable_inv (P : config → Prop) (sh sw : Z) :
  (∀ tape c0, main sh sw tape = Ok (Started c0) → P c0) →
  (∀ c c', P c → transition c c' → P c') →
  ∀ c, reachable sh sw c → P c.
Proof.
  intros Hinit Hkeep c (tape & c0 & slots & Hmain & Hrun).
  apply Hinit in Hmain. clear Hinit. revert c0 Hmain Hrun.
  induction slots as [| slot slots IH]; intros c0 Hc0; simpl.
  - by intros [= <-].
  - destruct (step c0 slot) as [c1 | e] eqn:Hstep; [| discriminate]. simpl.
    apply IH. apply (Hkeep c0); [exact Hc0 |]. by apply (step_transition c0 slot).
Qed.

(** ** The invariant of the game *)

Lemma steer_arrow (key d : Z) : arrow d → arrow (steer key d).
Proof.
  rewrite !arrow_cases. unfold steer, process_key_input. intros Hd.
  key_cases; tauto.
Qed.

Lemma steer_not_opposite (key d : Z) : arrow d → ¬ opposite (steer key d) d.
Proof.
  rewrite arrow_cases, opposite_cases. unfold steer, process_key_input.
  intros Hd. key_cases; intros H;
    destruct H as [[? ?] | [[? ?] | [[? ?] | [? ?]]]];
    try discriminate; try congruence;
    destruct Hd as [-> | [-> | [-> | ->]]]; discriminate.
Qed.

Lemma calculate_new_head_adjacent (head : cell) (rest : list cell) (d : Z)
    (new_head : cell) :
  arrow d →
  calculate_new_head (head :: rest) d = Ok new_head →
  adjacent new_head head.
Proof.
  rewrite arrow_cases. unfold adjacent.
  intros [-> | [-> | [-> | ->]]] [= <-]; simpl; lia.
Qed.

Lemma chain_removelast (l : list cell) : chain l → chain (removelast l).
Proof.
  induction l as [| a [| b l] IH]; [done | done |].
  intros [Hab Hrest].
  change (removelast (a :: b :: l)) with (a :: removelast (b :: l)).
  specialize (IH Hrest). destruct l as [| c l]; [done |].
  change (removelast (b :: c :: l)) with (b :: removelast (c :: l)) in *.
  by split.
Qed.

Lemma spawn_game_ok (c : config) (food' : cell) (tape' : list Z) (calls : list call)
    (ph : phase) :
  locals_ok (locals c) →
  create_food (h (locals c)) (w (locals c))
              (spawn (snake_y (locals c)) (snake_x (locals c))) (rng c)
    = Ok (food', tape') →
  game_ok {| locals := locals c; at_phase := ph;
             vars := Game (spawn (snake_y (locals c)) (snake_x (locals c)))
                          KEY_RIGHT food' 0;
             rng := tape'; log := calls |}.
Proof.
  intros Hloc Hfood.
  destruct (create_food_sound _ _ _ _ _ _ Hfood) as [Hfree Hin].
  unfold game_ok, config_ok. simpl. split_and!; try done.
  - by apply spawn_ok.
  - apply arrow_cases. tauto.
  - unfold adjacent. simpl. lia.
  - unfold adjacent. simpl. lia.
  - intros _. unfold heading_ok. simpl. do 2 f_equal. lia.
Qed.

Lemma main_game_ok (sh sw : Z) (tape : list Z) (c0 : config) :
  main sh sw tape = Ok (Started c0) → game_ok c0.
Proof.
  intros Hmain. pose proof (main_locals_ok _ _ _ _ Hmain) as Hloc.
  pose proof Hmain as (Hsh & Hsw & _)%main_started.
  rewrite main_large in Hmain by done.
  destruct (create_food _ _ _ tape) as [[food' tape'] | e] eqn:Hfood; [| discriminate].
  injection Hmain as <-.
  exact (spawn_game_ok
           {| locals := Env sh sw (sh - 2) (sw - 2) ((sw - 2) `div` 4)
                            ((sh - 2) `div` 2) 100 100;
              at_phase := Instructions;
              vars := Game [] 0 (0, 0) 0; rng := tape; log := [] |}
           food' tape' _ Instructions Hloc Hfood).
Qed.

Lemma transition_game_ok (c c' : config) :
  game_ok c → transition c c' → game_ok c'.
Proof.
  intros Hok Htr.
  pose proof Hok as (Hcfg & Hlen & Hscore & Harrow & Hfin & Hffree & Hchain & Hhead).
  pose proof Hcfg as [Hloc [Hdup Hall]].
  destruct Htr as [| Hph | Hph | key new_head Hph Hnew Hhit
                   | key new_head food' tape' Hph Hnew Hhit Heat Hfood
                   | key new_head tail Hph Hnew Hhit Hne Hlast
                   | food' tape' Hph Hfood].
  - exact Hok.
  - unfold game_ok, config_ok. simpl. split_and!; try done. intros _. auto.
  - unfold game_ok, config_ok. simpl. split_and!; try done.
    intros [? | ?]; discriminate.
  - unfold game_ok, config_ok. simpl. split_and!; try done.
    + by apply steer_arrow.
    + intros [? | ?]; discriminate.
  - destruct (snake (vars c)) as [| head rest] eqn:Hsnake; [discriminate |].
    apply collision_free in Hhit as [Hoff Hfresh].
    destruct (create_food_sound _ _ _ _ _ _ Hfood) as [Hfree' Hin'].
    assert (Har : arrow (steer key (direction (vars c)))) by by apply steer_arrow.
    unfold game_ok, config_ok, snake_ok. simpl. split_and!; try done.
    + by apply NoDup_cons_2.
    + apply Forall_cons_2; [| done].
      apply Forall_cons in Hall as [Hh _].
      exact (new_head_interior _ _ head rest _ new_head Hh Hnew Hoff).
    + simpl in Hlen. lia.
    + simpl in Hscore |- *. lia.
    + exact (calculate_new_head_adjacent head rest _ new_head Har Hnew).
    + by destruct Hchain.
    + by destruct Hchain.
  - destruct (snake (vars c)) as [| head [| neck rest]] eqn:Hsnake;
      [discriminate | simpl in Hlen; lia |].
    apply collision_free in Hhit as [Hoff Hfresh].
    assert (Har : arrow (steer key (direction (vars c)))) by by apply steer_arrow.
    assert (Hok' : snake_ok (h (locals c)) (w (locals c))
                     (removelast (head :: neck :: rest)))
      by (by apply snake_ok_removelast).
    destruct Hok' as [Hdup' Hall'].
    pose proof (chain_removelast _ Hchain) as Hchain'.
    assert (Hsub : ∀ x, x ∈ removelast (head :: neck :: rest) →
                        x ∈ head :: neck :: rest)
      by apply elem_of_removelast.
    change (removelast (head :: neck :: rest))
      with (head :: removelast (neck :: rest)) in *.
    pose proof (length_removelast_cons neck rest) as Hbody.
    set (body := removelast (neck :: rest)) in *. clearbody body.
    unfold game_ok, config_ok, snake_ok. simpl. split_and!; try done.
    + apply NoDup_cons_2; [| done]. intros Hc. by apply Hfresh, Hsub.
    + apply Forall_cons_2; [| done].
      apply Forall_cons in Hall as [Hh _].
      exact (new_head_interior _ _ head (neck :: rest) _ new_head Hh Hnew Hoff).
    + simpl in Hlen. lia.
    + simpl in Hscore. lia.
    + intros Hc. apply elem_of_cons in Hc as [Hc | Hc]; [congruence |].
      by apply Hffree, Hsub.
    + exact (calculate_new_head_adjacent head (neck :: rest) _ new_head Har Hnew).
    + by destruct Hchain'.
    + by destruct Hchain'.
  - by apply (spawn_game_ok c food' tape').
Qed.

Lemma reachable_game_ok (sh sw : Z) (c : config) :
  reachable sh sw c → game_ok c.
Proof.
  apply reachable_inv.
  - apply main_game_ok.
  - apply transition_game_ok.
Qed.

(** ** Two runs to try the properties on *)

(** A 30x10 terminal; the first food lies right ahead of the snake, which
    eats it on the first tick. *)
Lemma demo_playing :
  ∃ c, reachable 10 30 c ∧ at_phase c = Playing ∧
       locals c = Env 10 30 8 28 7 4 100 100 ∧
       vars c = Game [(4, 8); (4, 7); (4, 6); (4, 5)] KEY_RIGHT (6, 6) 1.
Proof.
  destruct (main 10 30 [3; 7; 5; 5]) as [[calls | c0] | e] eqn:Hmain;
    try (vm_compute in Hmain; discriminate Hmain).
  destruct (run c0 [None; None]) as [c | e] eqn:Hrun.
  2: { vm_compute in Hmain. injection Hmain as <-.
       vm_compute in Hrun. discriminate Hrun. }
  exists c. split; [by exists [3; 7; 5; 5], c0, [None; None] |].
  vm_compute in Hmain. injection Hmain as <-.
  vm_compute in Hrun. injection Hrun as <-. by split_and!.
Qed.

(** The same terminal; the snake turns up and runs into the top border. *)
Lemma demo_game_over :
  ∃ c, reachable 10 30 c ∧ at_phase c = GameOver ∧
       locals c = Env 10 30 8 28 7 4 100 100 ∧
       vars c = Game [(1, 8); (2, 8); (3, 8)] KEY_UP (1, 1) 0 ∧
       rng c = [9; 9].
Proof.
  destruct (main 10 30 [0; 0; 9; 9]) as [[calls | c0] | e] eqn:Hmain;
    try (vm_compute in Hmain; discriminate Hmain).
  destruct (run c0 [None; None; Some KEY_UP; None; None; None])
    as [c | e] eqn:Hrun.
  2: { vm_compute in Hmain. injection Hmain as <-.
       vm_compute in Hrun. discriminate Hrun. }
  exists c.
  split; [by exists [0; 0; 9; 9], c0, [None; None; Some KEY_UP; None; None; None] |].
  vm_compute in Hmain. injection Hmain as <-.
  vm_compute in Hrun. injection Hrun as <-. by split_and!.
Qed.

(** ** What holds in every reachable state *)

(** X1.  In every state the program reaches, the food cell is strictly
    inside the window interior and is not a cell of the snake. *)
Theorem food_never_on_snake (sh sw : Z) (c : config) :
  reachable sh sw c →
  interior (h (locals c)) (w (locals c)) (food (vars c)) ∧
  (food (vars c) ∉ snake (vars c)).
Proof.
  intros (_ & _ & _ & _ & Hin & Hfree & _)%reachable_game_ok. by split.
Qed.

Lemma food_never_on_snake_witness :
  ∃ c, reachable 10 30 c ∧
       snake (vars c) = [(4, 8); (4, 7); (4, 6); (4, 5)] ∧
       food (vars c) = (6, 6) ∧
       (food (vars c) ∉ snake (vars c)).
Proof.
  destruct demo_playing as (c & Hreach & _ & _ & Hvars).
  exists c. rewrite Hvars at 1 2. split_and!; try done.
  apply (food_never_on_snake 10 30 c Hreach).
Defined.

(** X2.  The direction the program holds is always one of the four arrow
    key codes: no other key code is ever stored as a direction. *)
Theorem direction_always_arrow (sh sw : Z) (c : config) :
  reachable sh sw c → arrow (direction (vars c)).
Proof.
  by intros (_ & _ & _ & Harrow & _)%reachable_game_ok.
Qed.

Lemma direction_always_arrow_witness :
  ∃ c, reachable 10 30 c ∧ at_phase c = GameOver ∧ arrow (direction (vars c)).
Proof.
  destruct demo_game_over as (c & Hreach & Hphase & _).
  exists c. split_and!; try done.
  apply (direction_always_arrow 10 30 c Hreach).
Defined.

(** X3.  The score counts the cells grown since the spawn: in every
    reachable state the score is the length of the snake minus three, so
    it is never negative and the snake never has fewer than three cells. *)
Theorem score_is_growth (sh sw : Z) (c : config) :
  reachable sh sw c →
  score (vars c) = Z.of_nat (length (snake (vars c))) - 3 ∧
  0 ≤ score (vars c) ∧
  (3 ≤ length (snake (vars c)))%nat.
Proof.
  intros (_ & Hlen & Hscore & _)%reachable_game_ok. split_and!; [done | lia | done].
Qed.

Lemma score_is_growth_witness :
  ∃ c, reachable 10 30 c ∧
       length (snake (vars c)) = 4%nat ∧ score (vars c) = 1.
Proof.
  destruct demo_playing as (c & Hreach & _ & _ & Hvars).
  destruct (score_is_growth 10 30 c Hreach) as (Hscore & _ & _).
  exists c. split; [exact Hreach |].
  assert (Hlen : length (snake (vars c)) = 4%nat) by by rewrite Hvars.
  split; [exact Hlen |]. rewrite Hscore, Hlen. reflexivity.
Defined.

(** X4.  The snake is connected: in every reachable state each cell of
    the snake is exactly one step (up, down, left or right) from the
    next one. *)
Theorem snake_is_connected (sh sw : Z) (c : config) :
  reachable sh sw c → chain (snake (vars c)).
Proof.
  by intros (_ & _ & _ & _ & _ & _ & Hchain & _)%reachable_game_ok.
Qed.

Lemma snake_is_connected_witness :
  ∃ c, reachable 10 30 c ∧
       snake (vars c) = [(4, 8); (4, 7); (4, 6); (4, 5)] ∧
       chain (snake (vars c)).
Proof.
  destruct demo_playing as (c & Hreach & _ & _ & Hvars).
  exists c. rewrite Hvars at 1. split_and!; try done.
  apply (snake_is_connected 10 30 c Hreach).
Defined.

(** ** The reversal guard at work *)

Lemma adjacent_parity (a b : cell) :
  adjacent a b →
  a.1 + a.2 - (b.1 + b.2) = 1 ∨ a.1 + a.2 - (b.1 + b.2) = -1.
Proof. unfold adjacent. lia. Qed.

Lemma new_head_off_neck (head neck : cell) (d d' : Z) (new_head : cell) :
  arrow d →
  calculate_new_head [neck] d = Ok head →
  arrow d' → ¬ opposite d' d →
  calculate_new_head [head] d' = Ok new_head →
  new_head ≠ neck.
Proof.
  rewrite !arrow_cases, opposite_cases. destruct head, neck, new_head.
  intros Hd Hhead Hd' Hopp Hnew Heq.
  destruct Hd as [-> | [-> | [-> | ->]]], Hd' as [-> | [-> | [-> | ->]]];
    unfold calculate_new_head in Hhead, Hnew; simpl in Hhead, Hnew;
    injection Hhead as ? ?; injection Hnew as ? ?; injection Heq as ? ?;
    first [lia | apply Hopp; tauto].
Qed.

Lemma calculate_new_head_total (head : cell) (rest : list cell) (d : Z) :
  ∃ new_head, calculate_new_head (head :: rest) d = Ok new_head.
Proof. unfold calculate_new_head. repeat case_match; by eexists. Qed.

Lemma playing_new_head (sh sw : Z) (c : config) (key : Z) :
  reachable sh sw c →
  at_phase c = Playing →
  ∃ head neck rest new_head,
    snake (vars c) = head :: neck :: rest ∧
    calculate_new_head (snake (vars c)) (steer key (direction (vars c)))
      = Ok new_head ∧
    adjacent new_head head ∧
    new_head ≠ neck.
Proof.
  intros (_ & Hlen & _ & Harrow & _ & _ & _ & Hhead)%reachable_game_ok Hphase.
  specialize (Hhead (or_intror Hphase)). unfold heading_ok in Hhead.
  destruct (snake (vars c)) as [| head [| neck rest]]; [done | done |].
  pose proof (steer_arrow key _ Harrow) as Har.
  destruct (calculate_new_head_total head (neck :: rest)
              (steer key (direction (vars c)))) as [new_head Hnew].
  exists head, neck, rest, new_head. split_and!; try done.
  - exact (calculate_new_head_adjacent head _ _ new_head Har Hnew).
  - exact (new_head_off_neck head neck _ _ new_head Harrow Hhead Har
             (steer_not_opposite key _ Harrow) Hnew).
Qed.


(** X5.  While playing, whatever key arrives, the new head is one step
    from the head and is never the cell right behind the head: the
    reversal guard of process_key_input keeps the snake from turning back
    into itself. *)
Theorem new_head_never_neck (sh sw : Z) (c : config) (key : Z) :
  reachable sh sw c →
  at_phase c = Playing →
  ∃ head neck rest new_head,
    snake (vars c) = head :: neck :: rest ∧
    calculate_new_head (snake (vars c)) (steer key (direction (vars c)))
      = Ok new_head ∧
    adjacent new_head head ∧
    new_head ≠ neck.
Proof. apply playing_new_head. Qed.

Lemma new_head_never_neck_witness :
  ∃ c new_head,
    reachable 10 30 c ∧
    snake (vars c) = [(4, 8); (4, 7); (4, 6); (4, 5)] ∧
    calculate_new_head (snake (vars c)) (steer KEY_LEFT (direction (vars c)))
      = Ok new_head ∧
    new_head ≠ (4, 7).
Proof.
  destruct demo_playing as (c & Hreach & Hphase & _ & Hvars).
  destruct (new_head_never_neck 10 30 c KEY_LEFT Hreach Hphase)
    as (head & neck & rest & new_head & Hsnake & Hnew & _ & Hneck).
  exists c, new_head. split_and!; try done.
  - by rewrite Hvars.
  - rewrite Hvars in Hsnake. simpl in Hsnake. by injection Hsnake as _ <- _.
Defined.

(** X6.  A snake of three cells cannot run into itself: while playing, a
    move whose new head is a cell of the snake needs a snake of at least
    four cells, that is a score of at least one. *)
Theorem self_collision_needs_four_cells
    (sh sw : Z) (c : config) (key : Z) (new_head : cell) :
  reachable sh sw c →
  at_phase c = Playing →
  calculate_new_head (snake (vars c)) (steer key (direction (vars c)))
    = Ok new_head →
  new_head ∈ snake (vars c) →
  (4 ≤ length (snake (vars c)))%nat ∧ 1 ≤ score (vars c).
Proof.
  intros Hreach Hphase Hnew Hin.
  destruct (playing_new_head sh sw c key Hreach Hphase)
    as (head & neck & rest & nh & Hsnake & Hnew' & Hadj & Hneck).
  rewrite Hnew in Hnew'. injection Hnew' as <-.
  pose proof (reachable_game_ok sh sw c Hreach)
    as (_ & Hlen & Hscore & _ & _ & _ & Hchain & _).
  rewrite Hsnake in Hin, Hchain, Hlen, Hscore |- *.
  destruct rest as [| third rest]; [simpl in Hlen; lia |].
  destruct rest as [| fourth rest]; [| simpl in Hscore |- *; lia].
  exfalso. destruct Hchain as (H01 & H12 & _).
  apply adjacent_parity in Hadj, H01, H12.
  rewrite !elem_of_cons, elem_of_nil in Hin.
  destruct Hin as [-> | [-> | [-> | []]]]; [lia | done | lia].
Qed.

Lemma self_collision_needs_four_cells_witness :
  ∃ c, reachable 10 30 c ∧ at_phase c = Playing ∧
       snake (vars c) = [(5, 7); (5, 8); (4, 8); (4, 7)] ∧
       calculate_new_head (snake (vars c)) (steer KEY_UP (direction (vars c)))
         = Ok (4, 7) ∧
       (4, 7) ∈ snake (vars c) ∧
       (4 ≤ length (snake (vars c)))%nat ∧ 1 ≤ score (vars c).
Proof.
  (* eat at (4, 8), turn down, turn left: the head is below the tail *)
  pose (slots := [None; None; Some KEY_DOWN; Some KEY_LEFT]).
  destruct (main 10 30 [3; 7; 5; 5]) as [[calls | c0] | e] eqn:Hmain;
    try (vm_compute in Hmain; discriminate Hmain).
  destruct (run c0 slots) as [c | e] eqn:Hrun.
  2: { vm_compute in Hmain. injection Hmain as <-.
       vm_compute in Hrun. discriminate Hrun. }
  assert (Hreach : reachable 10 30 c) by (by exists [3; 7; 5; 5], c0, slots).
  assert (Hfacts : at_phase c = Playing ∧
                   vars c = Game [(5, 7); (5, 8); (4, 8); (4, 7)] KEY_LEFT (6, 6) 1).
  { vm_compute in Hmain. injection Hmain as <-.
    vm_compute in Hrun. by injection Hrun as <-. }
  destruct Hfacts as [Hphase Hvars].
  assert (Hnew : calculate_new_head (snake (vars c))
                   (steer KEY_UP (direction (vars c))) = Ok (4, 7))
    by (by rewrite Hvars).
  assert (Hin : (4, 7) ∈ snake (vars c)).
  { rewrite Hvars. apply (bool_decide_unpack _). vm_compute. exact I. }
  destruct (self_collision_needs_four_cells 10 30 c KEY_UP (4, 7)
              Hreach Hphase Hnew Hin) as [Hlen Hscore].
  exists c. split_and!;
    [exact Hreach | exact Hphase | by rewrite Hvars | exact Hnew | exact Hin
    | exact Hlen | exact Hscore].
Defined.

(** ** Exceptions *)

Lemma create_food_in_game (c : config) (cells : list cell) (e : exn) :
  locals_ok (locals c) →
  create_food (h (locals c)) (w (locals c)) cells (rng c) = Raise e →
  e = NoMoreDraws ∧
  Forall (λ x, x ∈ cells) (candidates (h (locals c)) (w (locals c)) (rng c)).
Proof.
  intros (? & ? & ? & ? & _) Hfood.
  destruct (create_food_raises _ _ _ _ _ Hfood) as [[_ Hsmall] | Hdraws];
    [lia | exact Hdraws].
Qed.

Lemma move_raises (c : config) (d : Z) (e : exn) :
  config_ok c → (1 ≤ length (snake (vars c)))%nat →
  move c d = Raise e →
  e = NoMoreDraws ∧
  ∃ new_head,
    calculate_new_head (snake (vars c)) d = Ok new_head ∧
    collision (h (locals c)) (w (locals c)) new_head (snake (vars c)) = false ∧
    new_head = food (vars c) ∧
    create_food (h (locals c)) (w (locals c))
                (new_head :: snake (vars c)) (rng c) = Raise NoMoreDraws ∧
    Forall (λ x, x ∈ new_head :: snake (vars c))
           (candidates (h (locals c)) (w (locals c)) (rng c)).
Proof.
  intros [Hloc _] Hlen Hmove.
  destruct (snake (vars c)) as [| head rest] eqn:Hsnake; [simpl in Hlen; lia |].
  destruct (calculate_new_head_total head rest d) as [new_head Hnew].
  rewrite <- Hsnake in *.
  destruct (collision (h (locals c)) (w (locals c)) new_head (snake (vars c)))
    eqn:Hhit.
  { rewrite (move_collides c d new_head Hnew Hhit) in Hmove. discriminate. }
  destruct (decide (new_head = food (vars c))) as [Heat | Hne].
  - rewrite (move_eats c d new_head Hnew Hhit Heat) in Hmove.
    destruct (create_food _ _ _ _) as [[food' tape'] | e'] eqn:Hfood; [discriminate |].
    injection Hmove as ->.
    destruct (create_food_in_game c _ e Hloc Hfood) as [-> Hall].
    split; [reflexivity |]. by exists new_head.
  - destruct (move_slides c d new_head Hnew Hhit Hne) as (tail & _ & Heq).
    rewrite Heq in Hmove. discriminate.
Qed.

(** X7.  From a reachable state no step raises IndexError or ValueError.
    A step fails to complete in two cases only, both with create_food out
    of draws: in play, when a key other than 'q' (or no key) leads the
    head, without collision, onto the food, and every cell the remaining
    draws give create_food is a cell of the grown snake; at the game-over
    prompt, when the key is 'r' and every cell the remaining draws give is
    a cell of the spawned snake. *)
Theorem step_raises_only_out_of_draws
    (rows cols : Z) (c : config) (slot : option Z) (e : exn) :
  reachable rows cols c →
  step c slot = Raise e →
  e = NoMoreDraws ∧
  ((at_phase c = Playing ∧
    ∃ key new_head,
      getch (win_delay (locals c)) slot = Some key ∧
      key ≠ ord "q"%char ∧
      calculate_new_head (snake (vars c)) (steer key (direction (vars c)))
        = Ok new_head ∧
      collision (h (locals c)) (w (locals c)) new_head (snake (vars c)) = false ∧
      new_head = food (vars c) ∧
      create_food (h (locals c)) (w (locals c))
                  (new_head :: snake (vars c)) (rng c) = Raise NoMoreDraws ∧
      Forall (λ x, x ∈ new_head :: snake (vars c))
             (candidates (h (locals c)) (w (locals c)) (rng c))) ∨
   (at_phase c = GameOver ∧
    getch (stdscr_delay (locals c)) slot = Some (ord "r"%char) ∧
    create_food (h (locals c)) (w (locals c))
                (spawn (snake_y (locals c)) (snake_x (locals c))) (rng c)
      = Raise NoMoreDraws ∧
    Forall (λ x, x ∈ spawn (snake_y (locals c)) (snake_x (locals c)))
           (candidates (h (locals c)) (w (locals c)) (rng c)))).
Proof.
  intros Hreach Hstep.
  pose proof (reachable_game_ok rows cols c Hreach) as (Hcfg & Hlen & _).
  assert (Hlen1 : (1 ≤ length (snake (vars c)))%nat) by lia.
  unfold step in Hstep. destruct (at_phase c) eqn:Hphase.
  - destruct (getch _ slot); discriminate.
  - destruct (getch _ slot) as [next_key |] eqn:Hget; [| discriminate].
    destruct (Z.eq_dec next_key (ord "q"%char)) as [-> | Hq];
      [discriminate |].
    rewrite (tick_moves c next_key Hq) in Hstep.
    destruct (move_raises c _ e Hcfg Hlen1 Hstep)
      as (-> & new_head & Hnew & Hhit & Heat & Hfood & Hall).
    split; [reflexivity |]. left. split; [reflexivity |].
    by exists next_key, new_head.
  - destruct (getch _ slot) as [key |] eqn:Hget; [| discriminate].
    unfold game_over in Hstep.
    destruct (Z.eqb_spec key (ord "r"%char)) as [-> | Hr].
    + rewrite restart_spec in Hstep.
      destruct (create_food _ _ _ _) as [[food' tape'] | e'] eqn:Hfood;
        [discriminate |].
      injection Hstep as ->. destruct Hcfg as [Hloc _].
      destruct (create_food_in_game c _ e Hloc Hfood) as [-> Hall].
      split; [reflexivity |]. right. by split_and!.
    + destruct (key =? ord "q"%char); discriminate.
  - discriminate.
Qed.

Lemma step_raises_only_out_of_draws_witness :
  ∃ c, reachable 10 30 c ∧ at_phase c = GameOver ∧
       step c (Some (ord "r"%char)) = Raise NoMoreDraws ∧
       create_food (h (locals c)) (w (locals c))
                   (spawn (snake_y (locals c)) (snake_x (locals c))) (rng c)
         = Raise NoMoreDraws.
Proof.
  (* the draws end while the game-over prompt is up *)
  destruct (main 10 30 [0; 0]) as [[calls | c0] | e] eqn:Hmain;
    try (vm_compute in Hmain; discriminate Hmain).
  destruct (run c0 [None; None; Some KEY_UP; None; None; None])
    as [c | e] eqn:Hrun.
  2: { vm_compute in Hmain. injection Hmain as <-.
       vm_compute in Hrun. discriminate Hrun. }
  assert (Hreach : reachable 10 30 c)
    by (by exists [0; 0], c0, [None; None; Some KEY_UP; None; None; None]).
  exists c. split; [exact Hreach |].
  destruct (step c (Some (ord "r"%char))) as [c' | e] eqn:Hstep.
  - vm_compute in Hmain. injection Hmain as <-.
    vm_compute in Hrun. injection Hrun as <-.
    vm_compute in Hstep. discriminate Hstep.
  - destruct (step_raises_only_out_of_draws 10 30 c _ e Hreach Hstep)
      as [-> [(Hplay & _) | (Hover & _ & Hfood & _)]].
    + exfalso. vm_compute in Hmain. injection Hmain as <-.
      vm_compute in Hrun. injection Hrun as <-. discriminate Hplay.
    + by split_and!.
Defined.

(** ** Keys *)

Lemma process_key_input_rejects (key cur : Z) :
  ¬ arrow key ∨ opposite key cur → process_key_input key cur = cur.
Proof.
  rewrite arrow_cases, opposite_cases. unfold process_key_input.
  intros H. key_cases; try reflexivity; exfalso;
    destruct H as [H | [[? ?] | [[? ?] | [[? ?] | [? ?]]]]];
    try discriminate; try congruence; apply H; tauto.
Qed.

(** X8.  When the current direction is an arrow, process_key_input
    returns an arrow, which is either the key or the current direction;
    an arrow key that does not reverse the current direction (the same
    arrow included) becomes the direction. *)
Theorem process_key_input_turns (key cur : Z) :
  arrow cur →
  arrow (process_key_input key cur) ∧
  (process_key_input key cur = key ∨ process_key_input key cur = cur) ∧
  (arrow key → ¬ opposite key cur → process_key_input key cur = key).
Proof.
  intros Hcur. split_and!.
  - revert Hcur. rewrite !arrow_cases. unfold process_key_input.
    intros Hcur. key_cases; tauto.
  - unfold process_key_input. key_cases; tauto.
  - apply process_key_input_accepts.
Qed.

Lemma process_key_input_turns_witness :
  process_key_input KEY_UP KEY_RIGHT = KEY_UP ∧
  process_key_input KEY_RIGHT KEY_RIGHT = KEY_RIGHT.
Proof.
  assert (Ha : arrow KEY_RIGHT) by (apply arrow_cases; tauto).
  split.
  - apply (process_key_input_turns KEY_UP KEY_RIGHT Ha).
    + apply arrow_cases. tauto.
    + rewrite opposite_cases. intros [[? ?] | [[? ?] | [[? ?] | [? ?]]]]; discriminate.
  - apply (process_key_input_turns KEY_RIGHT KEY_RIGHT Ha).
    + exact Ha.
    + rewrite opposite_cases. intros [[? ?] | [[? ?] | [[? ?] | [? ?]]]]; discriminate.
Defined.

(** X9.  While playing, a key that is neither 'q' nor an arrow, and an
    arrow that would reverse the direction of travel, have exactly the
    effect of no key at all: the tick goes on in the current direction. *)
Theorem other_keys_are_ignored (c : config) (key : Z) :
  at_phase c = Playing →
  0 ≤ win_delay (locals c) →
  key ≠ ord "q"%char →
  ¬ arrow key ∨ opposite key (direction (vars c)) →
  step c (Some key) = step c None.
Proof.
  intros Hphase Hdelay Hq Hkey. unfold step. rewrite Hphase. simpl.
  destruct (Z.ltb_spec (win_delay (locals c)) 0); [lia |].
  rewrite (tick_moves c key Hq), (tick_moves c (-1)) by discriminate.
  f_equal. unfold steer. destruct (key =? -1); [reflexivity |].
  by apply process_key_input_rejects.
Qed.

Lemma other_keys_are_ignored_witness :
  step scenario_eat (Some (ord "x"%char)) = step scenario_eat None ∧
  step scenario_eat (Some KEY_LEFT) = step scenario_eat None.
Proof.
  split.
  - apply (other_keys_are_ignored scenario_eat (ord "x"%char));
      [reflexivity | simpl; lia | discriminate |].
    left. rewrite arrow_cases. intros [H | [H | [H | H]]]; discriminate H.
  - apply (other_keys_are_ignored scenario_eat KEY_LEFT);
      [reflexivity | simpl; lia | discriminate |].
    right. apply opposite_cases. simpl. tauto.
Defined.

Lemma terminated_final (c : config) (slots : list (option Z)) :
  at_phase c = Terminated → run c slots = Ok c.
Proof.
  intros Hphase. induction slots as [| slot slots IH]; [reflexivity |].
  simpl. unfold step. rewrite Hphase. exact IH.
Qed.

(** X10.  While playing, 'q' ends the program at once: the snake does not
    move, no collision is looked for, nothing is drawn, and no later
    input is read. *)
Theorem quit_ends_play (c : config) (slots : list (option Z)) :
  at_phase c = Playing →
  run c (Some (ord "q"%char) :: slots) =
    Ok {| locals := locals c; at_phase := Terminated; vars := vars c;
          rng := rng c; log := log c |}.
Proof.
  intros Hphase. simpl. unfold step. rewrite Hphase. simpl.
  by apply terminated_final.
Qed.

Lemma quit_ends_play_witness :
  ∃ c', run scenario_eat [Some (ord "q"%char); Some KEY_UP; None] = Ok c' ∧
        at_phase c' = Terminated ∧ vars c' = vars scenario_eat.
Proof.
  eexists. split; [apply (quit_ends_play scenario_eat); reflexivity |].
  by split.
Defined.

(** X11.  The game-over prompt acts only on 'r' and 'q': over any
    sequence of poll slots that bring neither (no key, arrows, other
    keys) the program stays at the prompt and changes nothing. *)
Theorem game_over_waits (c : config) (slots : list (option Z)) :
  at_phase c = GameOver →
  Forall idle_slot slots →
  run c slots = Ok c.
Proof.
  intros Hphase Hidle. induction Hidle as [| slot slots [Hr Hq] _ IH];
    [reflexivity |].
  simpl. replace (step c slot) with (Ok c); [exact IH |].
  unfold step. rewrite Hphase.
  destruct (getch (stdscr_delay (locals c)) slot) as [key |] eqn:Hget;
    [| reflexivity].
  assert (Hkey : key ≠ ord "r"%char ∧ key ≠ ord "q"%char).
  { unfold getch in Hget. destruct slot as [k |].
    - injection Hget as <-. split; congruence.
    - destruct (_ <? _); [discriminate |]. injection Hget as <-.
      split; discriminate. }
  unfold game_over. destruct Hkey as [Hkr Hkq].
  by rewrite (proj2 (Z.eqb_neq _ _) Hkr), (proj2 (Z.eqb_neq _ _) Hkq).
Qed.

Lemma game_over_waits_witness :
  ∃ c, reachable 10 30 c ∧ at_phase c = GameOver ∧
       run c [None; Some KEY_UP; Some (ord "x"%char); None] = Ok c.
Proof.
  destruct demo_game_over as (c & Hreach & Hphase & _).
  exists c. split_and!; try done.
  apply (game_over_waits c _ Hphase).
  repeat constructor; discriminate.
Defined.

(** ** More on food placement *)

(** X12.  create_food returns the first cell it draws that is not on the
    snake: every cell drawn before it is a snake cell, each round costs
    exactly two draws, and the draws left over are the rest of the tape
    untouched. *)
Theorem create_food_returns_first_free
    (h w : Z) (cells : list cell) (tape : list Z) (food' : cell) (rest : list Z) :
  create_food h w cells tape = Ok (food', rest) →
  ∃ tried,
    Forall (λ x, x ∈ cells) tried ∧
    candidates h w tape = tried ++ food' :: candidates h w rest ∧
    rest = drop (2 * (length tried + 1)) tape ∧
    length tape = (2 * (length tried + 1) + length rest)%nat.
Proof.
  induction tape as [| r | r1 r2 tape IH] using tape_rounds_ind; simpl.
  - destruct (empty_range 1 (h - 2)); discriminate.
  - destruct (empty_range 1 (h - 2)); [discriminate |].
    destruct (empty_range 1 (w - 2)); discriminate.
  - destruct (empty_range 1 (h - 2)); [discriminate |].
    destruct (empty_range 1 (w - 2)); [discriminate |].
    case_bool_decide as Hfree.
    + intros [= <- <-]. exists []. split_and!; try done.
    + fold (create_food h w cells tape). intros Hrec.
      destruct (IH Hrec) as (tried & Hall & Hcand & Hrest & Hlen).
      exists ((randint 1 (h - 2) r1, randint 1 (w - 2) r2) :: tried).
      split_and!.
      * constructor; [| exact Hall].
        destruct (decide ((randint 1 (h - 2) r1, randint 1 (w - 2) r2) ∈ cells));
          tauto.
      * simpl. by rewrite Hcand.
      * rewrite Hrest at 1. cbn [length].
        replace (S (length tried) + 1 + (S (length tried) + 1 + 0))%nat
          with (S (S (2 * (length tried + 1)))) by lia.
        reflexivity.
      * simpl. lia.
Qed.

Lemma create_food_returns_first_free_witness :
  ∃ tried,
    Forall (λ x, x ∈ [(4, 7); (4, 6); (4, 5)]) tried ∧
    candidates 8 28 [3; 6; 3; 5; 0; 0; 1; 2] = tried ++ (1, 1) :: candidates 8 28 [1; 2] ∧
    length tried = 2%nat.
Proof.
  destruct (create_food_returns_first_free 8 28 [(4, 7); (4, 6); (4, 5)]
              [3; 6; 3; 5; 0; 0; 1; 2] (1, 1) [1; 2] eq_refl)
    as (tried & Hall & Hcand & Hrest & Hlen).
  exists tried. split_and!; try done. simpl in Hlen. unfold cell in *. lia.
Defined.

(** X13.  create_food can return if and only if some interior cell is
    free: when the snake covers the whole interior (or the window has no
    interior) no sequence of draws makes the loop return. *)
Theorem create_food_can_return_iff (h w : Z) (cells : list cell) :
  (∃ tape food' rest, create_food h w cells tape = Ok (food', rest)) ↔
  (∃ x, interior h w x ∧ x ∉ cells).
Proof.
  split.
  - intros (tape & food' & rest & Hfood).
    destruct (create_food_sound _ _ _ _ _ _ Hfood) as [Hfree Hin]. by exists food'.
  - intros (x & [Hrow Hcol] & Hfree).
    exists [x.1 - 1; x.2 - 1].
    apply create_food_complete; [apply Z.ltb_ge; lia | apply Z.ltb_ge; lia |].
    exists x. split; [| exact Hfree]. simpl.
    rewrite !randint_onto by lia. destruct x. left.
Qed.

Lemma create_food_can_return_iff_witness :
  ¬ ∃ tape food' rest,
      create_food 3 4 [(1, 1); (1, 2)] tape = Ok (food', rest).
Proof.
  intros Hret. apply (create_food_can_return_iff 3 4 [(1, 1); (1, 2)]) in Hret.
  destruct Hret as ([r k] & [Hrow Hcol] & Hfree). simpl in Hrow, Hcol.
  apply Hfree. assert (r = 1) as -> by lia.
  assert (k = 1 ∨ k = 2) as [-> | ->] by lia.
  - left.
  - right. left.
Defined.

(** ** What is drawn in the game window *)

Lemma cell_eta (x : cell) : (x.1, x.2) = x.
Proof. by destruct x. Qed.

Lemma last_elem_of (l : list cell) (t : cell) : last l = Some t → t ∈ l.
Proof.
  intros [l' ->]%last_Some. apply elem_of_app. right. left.
Qed.

Lemma show_instructions_stdscr (h w sh sw : Z) :
  Forall (drawn_inside h w) (show_instructions sh sw).
Proof.
  unfold show_instructions, addstr_lines. cbn [imap length app].
  repeat constructor.
Qed.

Lemma game_over_screen_stdscr (h w sh sw score : Z) :
  Forall (drawn_inside h w) (game_over_screen sh sw score).
Proof.
  unfold game_over_screen, addstr_lines. cbn [imap length app].
  repeat constructor.
Qed.

Lemma main_draws_inside (sh sw : Z) (tape : list Z) (c0 : config) :
  main sh sw tape = Ok (Started c0) →
  Forall (drawn_inside (h (locals c0)) (w (locals c0))) (log c0).
Proof.
  intros Hmain. pose proof Hmain as (Hsh & Hsw & _)%main_started.
  rewrite main_large in Hmain by done.
  destruct (create_food _ _ _ tape) as [[food' tape'] | e] eqn:Hfood; [| discriminate].
  injection Hmain as <-. simpl.
  destruct (create_food_sound _ _ _ _ _ _ Hfood) as [_ Hin].
  repeat (apply Forall_cons_2; [done || (simpl; by rewrite cell_eta) |]).
  apply Forall_nil_2.
Qed.

Ltac draws_inside :=
  unfold loop_top;
  rewrite ?Forall_app, ?Forall_cons, ?Forall_nil; simpl; rewrite ?cell_eta; tauto.

Lemma transition_draws_inside (c c' : config) :
  game_ok c →
  Forall (drawn_inside (h (locals c)) (w (locals c))) (log c) →
  transition c c' →
  Forall (drawn_inside (h (locals c')) (w (locals c'))) (log c').
Proof.
  intros Hok Hlog Htr.
  pose proof Hok as ([Hloc [Hdup Hall]] & _).
  destruct Htr as [| Hph | Hph | key new_head Hph Hnew Hhit
                   | key new_head food' tape' Hph Hnew Hhit Heat Hfood
                   | key new_head tail Hph Hnew Hhit Hne Hlast
                   | food' tape' Hph Hfood]; simpl; try done.
  - draws_inside.
  - apply Forall_app. split; [done | apply game_over_screen_stdscr].
  - destruct (create_food_sound _ _ _ _ _ _ Hfood) as [_ Hin'].
    apply collision_free in Hhit as [Hoff _].
    destruct (snake (vars c)) as [| head rest]; [discriminate |].
    apply Forall_cons in Hall as [Hhead _].
    pose proof (new_head_interior _ _ head rest _ new_head Hhead Hnew Hoff).
    draws_inside.
  - apply collision_free in Hhit as [Hoff _].
    assert (Htail : interior (h (locals c)) (w (locals c)) tail).
    { rewrite Forall_forall in Hall. by apply Hall, last_elem_of. }
    destruct (snake (vars c)) as [| head rest]; [discriminate |].
    apply Forall_cons in Hall as [Hhead _].
    pose proof (new_head_interior _ _ head rest _ new_head Hhead Hnew Hoff).
    draws_inside.
  - destruct (create_food_sound _ _ _ _ _ _ Hfood) as [_ Hin'].
    draws_inside.
Qed.

(** X14.  Every [win.addch] the program makes is on a cell strictly inside
    the game window (rows 1..h-2, columns 1..w-2): the food, the head and
    the erased tail are never drawn on the window's edge or outside it. *)
Theorem window_draws_stay_inside (sh sw : Z) (c : config) :
  reachable sh sw c →
  Forall (drawn_inside (h (locals c)) (w (locals c))) (log c).
Proof.
  intros Hreach.
  apply (reachable_inv
           (λ c, game_ok c ∧
                 Forall (drawn_inside (h (locals c)) (w (locals c))) (log c)))
    in Hreach as [_ Hlog]; [exact Hlog | |].
  - intros tape c0 Hmain. split; [by eapply main_game_ok | by eapply main_draws_inside].
  - intros c1 c2 [Hok Hlog] Htr.
    split; [by eapply transition_game_ok | by eapply transition_draws_inside].
Qed.

Lemma window_draws_stay_inside_witness :
  ∃ c, reachable 10 30 c ∧ at_phase c = Playing ∧
       win_addch 4 8 ACS_CKBOARD ∈ log c ∧
       Forall (drawn_inside 8 28) (log c).
Proof.
  destruct (main 10 30 [3; 7; 5; 5]) as [[calls | c0] | e] eqn:Hmain;
    try (vm_compute in Hmain; discriminate Hmain).
  destruct (run c0 [None; None]) as [c | e] eqn:Hrun.
  2: { vm_compute in Hmain. injection Hmain as <-.
       vm_compute in Hrun. discriminate Hrun. }
  assert (Hreach : reachable 10 30 c) by (by exists [3; 7; 5; 5], c0, [None; None]).
  pose proof (window_draws_stay_inside 10 30 c Hreach) as Hin.
  exists c. split; [exact Hreach |].
  vm_compute in Hmain. injection Hmain as <-.
  vm_compute in Hrun. injection Hrun as <-.
  split_and!; [reflexivity | set_solver | exact Hin].
Defined.

(** ** What the game window shows *)

Lemma window_app (l l' : list call) :
  window (l ++ l') = foldl paint (window l) l'.
Proof. unfold window. apply foldl_app. Qed.

Lemma paint_game_over_screen (scr : gmap cell glyph) (sh sw score : Z) :
  foldl paint scr (game_over_screen sh sw score) = scr.
Proof. reflexivity. Qed.

Lemma paint_loop_top (scr : gmap cell glyph) (e : env) (score : Z) :
  foldl paint scr (loop_top e score) = scr.
Proof. reflexivity. Qed.

Lemma main_window_ok (sh sw : Z) (tape : list Z) (c0 : config) :
  main sh sw tape = Ok (Started c0) → window_ok c0.
Proof.
  intros Hmain. pose proof Hmain as (Hsh & Hsw & _)%main_started.
  rewrite main_large in Hmain by done.
  destruct (create_food _ _ _ tape) as [[food' tape'] | e] eqn:Hfood; [| discriminate].
  injection Hmain as <-. unfold window_ok. simpl log. simpl food. simpl snake.
  change (window _) with (<[(food'.1, food'.2) := ACS_DIAMOND]> (∅ : gmap cell glyph)).
  rewrite cell_eta. split; intros p.
  - rewrite lookup_insert_Some, lookup_empty. split.
    + intros [[<- _] | [_ [=]]]. reflexivity.
    + intros ->. by left.
  - rewrite lookup_insert_Some, lookup_empty. intros [[_ [=]] | [_ [=]]].
Qed.

Lemma transition_window_ok (c c' : config) :
  game_ok c → window_ok c → transition c c' → window_ok c'.
Proof.
  intros Hok [Hfoodw Hsnakew] Htr.
  pose proof Hok as ([Hloc [Hdup Hall]] & _ & _ & _ & _ & Hffree & _).
  destruct Htr as [| Hph | Hph | key new_head Hph Hnew Hhit
                   | key new_head food' tape' Hph Hnew Hhit Heat Hfood
                   | key new_head tail Hph Hnew Hhit Hne Hlast
                   | food' tape' Hph Hfood];
    unfold window_ok; simpl; try done.
  - by rewrite window_app, paint_loop_top.
  - by rewrite window_app, paint_game_over_screen.
  - destruct (create_food_sound _ _ _ _ _ _ Hfood) as [Hfree' _].
    rewrite not_elem_of_cons in Hfree'. destruct Hfree' as [Hfn Hfs].
    rewrite window_app. simpl.
    rewrite !cell_eta. split; intros p.
    + rewrite !lookup_insert_Some, Hfoodw. split.
      * intros [[_ [=]] | [Hn [[<- _] | [_ ->]]]]; [reflexivity | congruence].
      * intros ->. right. split; [congruence |]. by left.
    + rewrite !lookup_insert_Some, elem_of_cons.
      intros [[<- _] | [_ [[_ [=]] | [_ Hp]]]]; [by left | right; by apply Hsnakew].
  - apply collision_free in Hhit as [_ Hfresh].
    pose proof (last_elem_of _ _ Hlast) as Htail.
    destruct (removelast_snoc (snake (vars c))) as [Hnil | (t & Hlast' & Hsnoc)];
      [by rewrite Hnil in Hlast |].
    rewrite Hlast in Hlast'. injection Hlast' as <-.
    rewrite window_app. simpl.
    rewrite !cell_eta. split; intros p.
    + rewrite !lookup_insert_Some, Hfoodw. split.
      * intros [[_ [=]] | [_ [[_ [=]] | [_ ->]]]]. reflexivity.
      * intros ->. right. split; [congruence |]. right. split; [| reflexivity].
        intros ->. contradiction.
    + rewrite !lookup_insert_Some, elem_of_cons.
      intros [[<- _] | [Hpn [[_ [=]] | [Hpt Hp]]]]; [by left | right].
      apply Hsnakew in Hp. rewrite Hsnoc in Hp.
      apply elem_of_app in Hp as [Hp | Hp]; [exact Hp |].
      apply list_elem_of_singleton in Hp. congruence.
  - rewrite window_app. simpl.
    rewrite !cell_eta. split; intros p.
    + rewrite lookup_insert_Some, lookup_empty. split.
      * intros [[<- _] | [_ [=]]]. reflexivity.
      * intros ->. by left.
    + rewrite lookup_insert_Some, lookup_empty. intros [[_ [=]] | [_ [=]]].
Qed.

(** X15.  In every reachable state the game window shows the food glyph
    on the food cell and nowhere else, and shows the snake glyph only on
    cells of the snake: eating, moving and restarting never leave a stale
    food or body glyph behind. *)
Theorem window_shows_food_and_snake (sh sw : Z) (c : config) :
  reachable sh sw c →
  (∀ p, window (log c) !! p = Some ACS_DIAMOND ↔ p = food (vars c)) ∧
  (∀ p, window (log c) !! p = Some ACS_CKBOARD → p ∈ snake (vars c)).
Proof.
  intros Hreach.
  apply (reachable_inv (λ c, game_ok c ∧ window_ok c)) in Hreach as [_ Hw];
    [exact Hw | |].
  - intros tape c0 Hmain. split; [by eapply main_game_ok | by eapply main_window_ok].
  - intros c1 c2 [Hok Hw] Htr.
    split; [by eapply transition_game_ok | by eapply transition_window_ok].
Qed.

Lemma window_shows_food_and_snake_witness :
  ∃ c, reachable 10 30 c ∧
       food (vars c) = (6, 6) ∧
       window (log c) !! (6, 6) = Some ACS_DIAMOND ∧
       window (log c) !! (4, 8) = Some ACS_CKBOARD ∧
       (4, 8) ∈ snake (vars c).
Proof.
  destruct (main 10 30 [3; 7; 5; 5]) as [[calls | c0] | e] eqn:Hmain;
    try (vm_compute in Hmain; discriminate Hmain).
  destruct (run c0 [None; None]) as [c | e] eqn:Hrun.
  2: { vm_compute in Hmain. injection Hmain as <-.
       vm_compute in Hrun. discriminate Hrun. }
  assert (Hreach : reachable 10 30 c) by (by exists [3; 7; 5; 5], c0, [None; None]).
  destruct (window_shows_food_and_snake 10 30 c Hreach) as [Hfoodw Hsnakew].
  assert (Hfood : food (vars c) = (6, 6)).
  { vm_compute in Hmain. injection Hmain as <-.
    vm_compute in Hrun. by injection Hrun as <-. }
  assert (Hhead : window (log c) !! (4, 8) = Some ACS_CKBOARD).
  { vm_compute in Hmain. injection Hmain as <-.
    vm_compute in Hrun. injection Hrun as <-. vm_compute. reflexivity. }
  exists c. split_and!; try done.
  - apply Hfoodw. by rewrite Hfood.
  - by apply Hsnakew.
Defined.

(** ** Start-up screen and fixed locals *)

(** X16.  When the size check passes (at least 10 rows and 30 columns),
    every string [main] writes before the game starts (the title and the
    five lines of instructions) lies within the terminal: its row is on
    the screen and the whole text fits between column 0 and the last
    column. *)
Theorem startup_text_fits (sh sw : Z) (tape : list Z) (c0 : config) :
  main sh sw tape = Ok (Started c0) →
  Forall (fits sh sw) (log c0).
Proof.
  intros Hmain. pose proof Hmain as (Hsh & Hsw & _)%main_started.
  rewrite main_large in Hmain by done.
  destruct (create_food _ _ _ tape) as [[food' tape'] | e]; [| discriminate].
  injection Hmain as <-.
  unfold show_instructions, addstr_lines. cbn [log imap length app].
  change (Z.of_nat 5 `div` 2) with 2.
  repeat (apply Forall_cons_2;
          [first [exact I
                 | cbn; Z.to_euclidean_division_equations; lia] |]).
  apply Forall_nil_2.
Qed.

Lemma startup_text_fits_witness :
  ∃ c0, main 10 30 [0; 0] = Ok (Started c0) ∧
        stdscr_addstr 7 3 "Press any key to start" ∈ log c0 ∧
        Forall (fits 10 30) (log c0).
Proof.
  destruct (main 10 30 [0; 0]) as [[calls | c0] | e] eqn:Hmain;
    try (vm_compute in Hmain; discriminate Hmain).
  pose proof (startup_text_fits 10 30 [0; 0] c0 Hmain) as Hfits.
  exists c0. split; [reflexivity |]. split; [| exact Hfits].
  vm_compute in Hmain. injection Hmain as <-. set_solver.
Defined.

Lemma board_is_fixed_locals (sh sw : Z) (c : config) :
  reachable sh sw c →
  locals c = Env sh sw (sh - 2) (sw - 2) ((sw - 2) `div` 4) ((sh - 2) `div` 2)
                 100 100.
Proof.
  intros (tape & c0 & slots & Hmain & Hrun).
  destruct (run_keeps_ok slots c0 c (main_config_ok _ _ _ _ Hmain) Hrun) as [-> _].
  by apply main_started in Hmain as (_ & _ & -> & _).
Qed.

(** X17.  The locals [main] computes once (terminal size, window size,
    spawn offset, input delays) are the same in every reachable state:
    neither a tick nor a restart changes the board. *)
Theorem board_is_fixed (sh sw : Z) (c : config) :
  reachable sh sw c →
  locals c = Env sh sw (sh - 2) (sw - 2) ((sw - 2) `div` 4) ((sh - 2) `div` 2)
                 100 100.
Proof. apply board_is_fixed_locals. Qed.

Lemma board_is_fixed_witness :
  ∃ c, reachable 10 30 c ∧ at_phase c = GameOver ∧
       h (locals c) = 8 ∧ w (locals c) = 28.
Proof.
  destruct demo_game_over as (c & Hreach & Hphase & _).
  pose proof (board_is_fixed 10 30 c Hreach) as Hloc.
  exists c. split_and!; try done; by rewrite Hloc.
Defined.

(** ** The snake fits the board *)

Lemma interior_cells_bound (h w : Z) (cells : list cell) :
  0 ≤ h - 2 → 0 ≤ w - 2 →
  NoDup cells → Forall (interior h w) cells →
  Z.of_nat (length cells) ≤ (h - 2) * (w - 2).
Proof.
  intros Hh Hw Hdup Hall.
  pose (board := cprod (seqZ 1 (h - 2)) (seqZ 1 (w - 2))).
  assert (Hsub : cells ⊆+ board).
  { apply NoDup_submseteq; [exact Hdup |]. intros x Hx.
    rewrite Forall_forall in Hall. destruct (Hall x Hx) as [Hr Hc].
    apply list_elem_of_cprod. rewrite !elem_of_seqZ. lia. }
  apply submseteq_length in Hsub. unfold board in Hsub.
  unfold cell in *.
  rewrite list_cprod_list_prod, length_prod, !length_seqZ in Hsub. nia.
Qed.

(** X18.  The snake never outgrows the board: in every reachable state
    its length is at most the number of interior cells (h-2)*(w-2), and
    the score at most that number minus three. *)
Theorem snake_fits_board (sh sw : Z) (c : config) :
  reachable sh sw c →
  Z.of_nat (length (snake (vars c))) ≤ (h (locals c) - 2) * (w (locals c) - 2) ∧
  score (vars c) ≤ (h (locals c) - 2) * (w (locals c) - 2) - 3.
Proof.
  intros ([Hloc [Hdup Hall]] & _ & Hscore & _)%reachable_game_ok.
  destruct Hloc as (? & ? & ? & ? & _).
  assert (Hh : 0 ≤ h (locals c) - 2) by lia.
  assert (Hw : 0 ≤ w (locals c) - 2) by lia.
  pose proof (interior_cells_bound _ _ _ Hh Hw Hdup Hall).
  lia.
Qed.

Lemma snake_fits_board_witness :
  ∃ c, reachable 10 30 c ∧ score (vars c) ≤ 6 * 26 - 3.
Proof.
  destruct demo_playing as (c & Hreach & _ & Hloc & _).
  destruct (snake_fits_board 10 30 c Hreach) as [_ Hscore].
  exists c. split; [exact Hreach |]. by rewrite Hloc in Hscore.
Defined.

(** ** A player who presses nothing *)

Lemma idle_step (c : config) :
  at_phase c = Playing → locals_ok (locals c) →
  step c None = move c (direction (vars c)).
Proof.
  intros Hphase (_ & _ & _ & _ & _ & _ & _ & Hdelay).
  unfold step. rewrite Hphase, Hdelay. reflexivity.
Qed.

Lemma wall_distance_step (h w d : Z) (head : cell) (rest : list cell)
    (new_head : cell) :
  arrow d →
  calculate_new_head (head :: rest) d = Ok new_head →
  wall_distance h w d new_head = wall_distance h w d head - 1.
Proof.
  rewrite arrow_cases.
  intros [-> | [-> | [-> | ->]]] [= <-]; unfold wall_distance; simpl; lia.
Qed.

Lemma wall_distance_interior (h w d : Z) (head : cell) :
  arrow d → interior h w head → 1 ≤ wall_distance h w d head.
Proof.
  rewrite arrow_cases. unfold interior, wall_distance.
  intros [-> | [-> | [-> | ->]]] ?; simpl; lia.
Qed.

Lemma idle_run (n : nat) (c : config) (head : cell) (rest : list cell) :
  game_ok c →
  at_phase c = Playing →
  snake (vars c) = head :: rest →
  wall_distance (h (locals c)) (w (locals c)) (direction (vars c)) head
    ≤ Z.of_nat n →
  ∃ k, (1 ≤ k ≤ n)%nat ∧
       match run c (replicate k None) with
       | Ok c' => at_phase c' = GameOver
       | Raise e => e = NoMoreDraws
       end.
Proof.
  revert c head rest. induction n as [| n IH]; intros c head rest Hok Hphase Hsnake Hdist.
  { destruct Hok as ([_ [_ Hall]] & _ & _ & Harrow & _).
    rewrite Hsnake in Hall. apply Forall_cons in Hall as [Hhead _].
    pose proof (wall_distance_interior _ _ _ head Harrow Hhead). lia. }
  pose proof Hok as ([Hloc [_ Hall]] & _ & _ & Harrow & _).
  pose proof (idle_step c Hphase Hloc) as Hstep.
  destruct (calculate_new_head_total head rest (direction (vars c)))
    as [new_head Hnew].
  pose proof (wall_distance_step (h (locals c)) (w (locals c)) _ head rest
                new_head Harrow Hnew) as Hcloser.
  rewrite <- Hsnake in Hnew.
  destruct (collision (h (locals c)) (w (locals c)) new_head (snake (vars c)))
    eqn:Hhit.
  { exists 1%nat. split; [lia |]. simpl.
    rewrite Hstep, (move_collides c _ new_head Hnew Hhit). reflexivity. }
  assert (Hnext : ∀ c1,
            step c None = Ok c1 →
            at_phase c1 = Playing →
            direction (vars c1) = direction (vars c) →
            locals c1 = locals c →
            (∃ rest1, snake (vars c1) = new_head :: rest1) →
            ∃ k, (1 ≤ k ≤ S n)%nat ∧
                 match run c (replicate k None) with
                 | Ok c' => at_phase c' = GameOver
                 | Raise e => e = NoMoreDraws
                 end).
  { intros c1 Hc1 Hph1 Hdir1 Hloc1 [rest1 Hsnake1].
    assert (Hok1 : game_ok c1)
      by (apply (transition_game_ok c); [done | by apply (step_transition c None)]).
    destruct (IH c1 new_head rest1 Hok1 Hph1 Hsnake1) as (k & Hk & Hrun).
    { rewrite Hloc1, Hdir1. lia. }
    exists (S k). split; [lia |]. simpl. by rewrite Hc1. }
  destruct (decide (new_head = food (vars c))) as [Heat | Hne].
  - pose proof (move_eats c _ new_head Hnew Hhit Heat) as Hmove.
    destruct (create_food _ _ _ _) as [[food' tape'] | e] eqn:Hfood.
    + rewrite <- Hstep in Hmove. apply (Hnext _ Hmove); try done. by eexists.
    + exists 1%nat. split; [lia |]. simpl. rewrite Hstep, Hmove. simpl.
      by destruct (create_food_in_game c _ e Hloc Hfood) as [-> _].
  - destruct (move_slides c _ new_head Hnew Hhit Hne) as (tail & _ & Hmove).
    rewrite <- Hstep in Hmove. apply (Hnext _ Hmove); try done. by eexists.
Qed.

(** X19.  A player who presses nothing loses: from every reachable state
    of play, after at most max(h, w) poll slots without a key the snake
    has run straight into the border or into itself and the game-over
    screen is up (unless create_food, called on the way because the snake
    ate, ran out of draws). *)
Theorem idle_player_loses (sh sw : Z) (c : config) :
  reachable sh sw c →
  at_phase c = Playing →
  ∃ k, (1 ≤ k ≤ Z.to_nat (Z.max (h (locals c)) (w (locals c))))%nat ∧
       match run c (replicate k None) with
       | Ok c' => at_phase c' = GameOver
       | Raise e => e = NoMoreDraws
       end.
Proof.
  intros Hok%reachable_game_ok Hphase.
  pose proof Hok as ([Hloc [_ Hall]] & Hlen & _ & Harrow & _).
  destruct (snake (vars c)) as [| head rest] eqn:Hsnake; [simpl in Hlen; lia |].
  apply (idle_run _ c head rest Hok Hphase Hsnake).
  apply Forall_cons in Hall as [[Hrow Hcol] _].
  revert Harrow. rewrite arrow_cases. unfold wall_distance.
  intros [-> | [-> | [-> | ->]]]; simpl; lia.
Qed.

Lemma idle_player_loses_witness :
  ∃ c k, reachable 10 30 c ∧ at_phase c = Playing ∧ (1 ≤ k ≤ 28)%nat ∧
         match run c (replicate k None) with
         | Ok c' => at_phase c' = GameOver
         | Raise e => e = NoMoreDraws
         end.
Proof.
  destruct demo_playing as (c & Hreach & Hphase & Hloc & _).
  destruct (idle_player_loses 10 30 c Hreach Hphase) as (k & Hk & Hend).
  rewrite Hloc in Hk. simpl in Hk.
  exists c, k. split_and!; [done | done | lia | lia | exact Hend].
Defined.

(** ** The spawned snake on the screen *)

(** X20.  Neither [main] nor the restart branch draws the spawned snake:
    when the game starts, and again right after 'r' on the game-over
    prompt, the game window holds the food glyph and nothing else; cells
    of the snake appear only as the head moves onto them. *)
Theorem spawned_snake_is_not_drawn :
  (∀ sh sw tape c0,
     main sh sw tape = Ok (Started c0) →
     window (log c0) = {[ food (vars c0) := ACS_DIAMOND ]} ∧
     length (snake (vars c0)) = 3%nat) ∧
  (∀ c c',
     at_phase c = GameOver →
     step c (Some (ord "r"%char)) = Ok c' →
     window (log c') = {[ food (vars c') := ACS_DIAMOND ]} ∧
     length (snake (vars c')) = 3%nat).
Proof.
  split.
  - intros sh sw tape c0 Hmain. pose proof Hmain as (Hsh & Hsw & _)%main_started.
    rewrite main_large in Hmain by done.
    destruct (create_food _ _ _ tape) as [[food' tape'] | e]; [| discriminate].
    injection Hmain as <-. split; [| reflexivity]. simpl log. simpl food.
    change (window _) with (<[(food'.1, food'.2) := ACS_DIAMOND]> (∅ : gmap cell glyph)).
    by rewrite cell_eta, insert_empty.
  - intros c c' Hphase Hstep. unfold step in Hstep. rewrite Hphase in Hstep.
    simpl in Hstep. rewrite restart_spec in Hstep.
    destruct (create_food _ _ _ _) as [[food' tape'] | e]; [| discriminate].
    injection Hstep as <-. split; [| reflexivity]. simpl.
    rewrite window_app. simpl. by rewrite cell_eta, insert_empty.
Qed.

Lemma spawned_snake_is_not_drawn_witness :
  ∃ c0, main 10 30 [0; 0] = Ok (Started c0) ∧
        snake (vars c0) = [(4, 7); (4, 6); (4, 5)] ∧
        window (log c0) = {[ (1, 1) := ACS_DIAMOND ]} ∧
        window (log c0) !! (4, 7) = None.
Proof.
  destruct spawned_snake_is_not_drawn as [Hstart _].
  destruct (main 10 30 [0; 0]) as [[calls | c0] | e] eqn:Hmain;
    try (vm_compute in Hmain; discriminate Hmain).
  destruct (Hstart 10 30 [0; 0] c0 Hmain) as [Hwin _].
  assert (Hvars : snake (vars c0) = [(4, 7); (4, 6); (4, 5)] ∧ food (vars c0) = (1, 1)).
  { vm_compute in Hmain. by injection Hmain as <-. }
  destruct Hvars as [Hsnake Hfood]. rewrite Hfood in Hwin.
  exists c0. split_and!; try done. by rewrite Hwin.
Defined.

(** ** Ticks that stay in play *)

(** X21.  A step that starts and ends in play either leaves the food, the
    score, the length of the snake and the unread draws as they were, or
    the snake has eaten: its new head is the old food cell, it is one
    cell longer, the score is one higher and the food is on a different
    cell.  Draws are consumed only when the snake eats. *)
Theorem play_step_dichotomy (sh sw : Z) (c : config) (slot : option Z) (c' : config) :
  reachable sh sw c →
  at_phase c = Playing →
  step c slot = Ok c' →
  at_phase c' = Playing →
  (food (vars c') = food (vars c) ∧
   score (vars c') = score (vars c) ∧
   length (snake (vars c')) = length (snake (vars c)) ∧
   rng c' = rng c) ∨
  (food (vars c') ≠ food (vars c) ∧
   score (vars c') = score (vars c) + 1 ∧
   snake (vars c') = food (vars c) :: snake (vars c)).
Proof.
  intros Hok%reachable_game_ok Hphase Htr%step_transition Hphase'.
  destruct Htr as [| Hph | Hph | key new_head Hph Hnew Hhit
                   | key new_head food' tape' Hph Hnew Hhit Heat Hfood
                   | key new_head tail Hph Hnew Hhit Hne Hlast
                   | food' tape' Hph Hfood];
    try congruence; try discriminate.
  - left. by split_and!.
  - right. simpl. destruct (create_food_sound _ _ _ _ _ _ Hfood) as [Hfree _].
    rewrite not_elem_of_cons in Hfree. destruct Hfree as [Hfn _].
    split_and!; [congruence | reflexivity | by rewrite Heat].
  - left. simpl. split_and!; try reflexivity.
    destruct (snake (vars c)) as [| head rest]; [discriminate |].
    by rewrite length_removelast_cons.
Qed.

Lemma play_step_dichotomy_witness :
  ∃ c c', reachable 10 30 c ∧ step c None = Ok c' ∧
          snake (vars c') = [(4, 9); (4, 8); (4, 7); (4, 6)] ∧
          food (vars c') = food (vars c) ∧
          score (vars c') = score (vars c).
Proof.
  destruct (main 10 30 [3; 7; 5; 5]) as [[calls | c0] | e] eqn:Hmain;
    try (vm_compute in Hmain; discriminate Hmain).
  destruct (run c0 [None; None]) as [c | e] eqn:Hrun.
  2: { vm_compute in Hmain. injection Hmain as <-.
       vm_compute in Hrun. discriminate Hrun. }
  assert (Hreach : reachable 10 30 c) by (by exists [3; 7; 5; 5], c0, [None; None]).
  destruct (step c None) as [c' | e] eqn:Hstep.
  2: { vm_compute in Hmain. injection Hmain as <-.
       vm_compute in Hrun. injection Hrun as <-.
       vm_compute in Hstep. discriminate Hstep. }
  assert (Hfacts : at_phase c = Playing ∧ at_phase c' = Playing ∧
                   snake (vars c') = [(4, 9); (4, 8); (4, 7); (4, 6)] ∧
                   score (vars c') = score (vars c)).
  { vm_compute in Hmain. injection Hmain as <-.
    vm_compute in Hrun. injection Hrun as <-.
    vm_compute in Hstep. injection Hstep as <-. by split_and!. }
  destruct Hfacts as (Hphase & Hphase' & Hsnake & Hscore).
  exists c, c'. split_and!; try done.
  destruct (play_step_dichotomy 10 30 c None c' Hreach Hphase Hstep Hphase')
    as [(Hfood & _) | (_ & Hgrow & _)]; [exact Hfood | lia].
Defined.

(** ** What is on the screen last *)

Lemma transition_readout (c c' : config) :
  (at_phase c = Playing →
   ∃ before, log c = before ++ loop_top (locals c) (score (vars c))) →
  (at_phase c = GameOver →
   ∃ before, log c = before ++ game_over_screen (sh (locals c)) (sw (locals c))
                                                (score (vars c))) →
  transition c c' →
  (at_phase c' = Playing →
   ∃ before, log c' = before ++ loop_top (locals c') (score (vars c'))) ∧
  (at_phase c' = GameOver →
   ∃ before, log c' = before ++ game_over_screen (sh (locals c')) (sw (locals c'))
                                                 (score (vars c'))).
Proof.
  intros Hplay Hover Htr.
  destruct Htr as [| Hph | Hph | key new_head Hph Hnew Hhit
                   | key new_head food' tape' Hph Hnew Hhit Heat Hfood
                   | key new_head tail Hph Hnew Hhit Hne Hlast
                   | food' tape' Hph Hfood]; simpl.
  - by split.
  - split; [intros _; by eexists | discriminate].
  - split; discriminate.
  - split; [discriminate | intros _; by eexists].
  - split; [intros _ | discriminate].
    eexists (_ ++ [_; _]). by rewrite <- app_assoc.
  - split; [intros _ | discriminate].
    eexists (_ ++ [_; _]). by rewrite <- app_assoc.
  - split; [intros _ | discriminate].
    eexists (_ ++ [_; _]). by rewrite <- app_assoc.
Qed.

(** X22.  The score on the screen is the score of the game: in every
    reachable state of play the last calls made are the score line
    " Score: n " for the current score n and a refresh, and in every
    reachable game-over state the last thing drawn is the game-over
    screen with "Final Score: n" for that same score. *)
Theorem readout_is_current (rows cols : Z) (c : config) :
  reachable rows cols c →
  (at_phase c = Playing →
   ∃ before,
     log c = before ++
       [stdscr_addstr (rows - 1) 2 (" Score: " +:+ pretty (score (vars c)) +:+ " ");
        stdscr_refresh]) ∧
  (at_phase c = GameOver →
   ∃ before,
     log c = before ++ game_over_screen rows cols (score (vars c))).
Proof.
  intros Hreach. pose proof (board_is_fixed_locals rows cols c Hreach) as Hloc.
  revert c Hreach Hloc.
  cut (∀ c, reachable rows cols c →
         (at_phase c = Playing →
          ∃ before, log c = before ++ loop_top (locals c) (score (vars c))) ∧
         (at_phase c = GameOver →
          ∃ before,
            log c = before ++ game_over_screen (sh (locals c)) (sw (locals c))
                                               (score (vars c)))).
  { intros Hcut c Hreach Hloc. specialize (Hcut c Hreach).
    unfold loop_top in Hcut. by rewrite Hloc in Hcut. }
  apply (reachable_inv
           (λ c, (at_phase c = Playing →
                  ∃ before, log c = before ++ loop_top (locals c) (score (vars c))) ∧
                 (at_phase c = GameOver →
                  ∃ before,
                    log c = before ++ game_over_screen (sh (locals c)) (sw (locals c))
                                                       (score (vars c))))).
  - intros tape c0 (_ & _ & _ & Hph & _)%main_started.
    rewrite Hph. split; discriminate.
  - intros c1 c2 [Hp Ho] Htr. by apply (transition_readout c1).
Qed.

Lemma readout_is_current_witness :
  ∃ c before,
    reachable 10 30 c ∧ score (vars c) = 1 ∧
    log c = before ++ [stdscr_addstr 9 2 " Score: 1 "; stdscr_refresh].
Proof.
  destruct demo_playing as (c & Hreach & Hphase & _ & Hvars).
  destruct (readout_is_current 10 30 c Hreach) as [Hplay _].
  destruct (Hplay Hphase) as [before Hlog].
  rewrite Hvars in Hlog. exists c, before. split_and!; try done. by rewrite Hvars.
Defined.

(** ** Edge behaviour *)

(** X23.  Moving onto the cell the tail is about to leave is fatal: the
    collision test runs on the snake before its last cell is removed, so
    a new head equal to the last cell ends the game. *)
Theorem moving_onto_tail_is_fatal (c : config) (next_key : Z) (new_head : cell) :
  next_key ≠ ord "q"%char →
  calculate_new_head (snake (vars c)) (steer next_key (direction (vars c)))
    = Ok new_head →
  last (snake (vars c)) = Some new_head →
  ∃ c', tick c next_key = Ok c' ∧ at_phase c' = GameOver ∧
        snake (vars c') = snake (vars c).
Proof.
  intros Hq Hnew Hlast. rewrite tick_moves by exact Hq.
  assert (Hhit : collision (h (locals c)) (w (locals c)) new_head (snake (vars c))
                 = true).
  { apply collision_spec. right. by apply last_elem_of. }
  rewrite (move_collides c _ new_head Hnew Hhit). by eexists.
Qed.

Lemma moving_onto_tail_is_fatal_witness :
  ∃ c', tick scenario_corner KEY_LEFT = Ok c' ∧ at_phase c' = GameOver.
Proof.
  destruct (moving_onto_tail_is_fatal scenario_corner KEY_LEFT (1, 4))
    as (c' & Htick & Hphase & _); [discriminate | reflexivity | reflexivity |].
  by exists c'.
Defined.

(** X24.  The key that dismisses the instructions screen is thrown away:
    whatever it is ('q' and the arrows included), the game starts from
    the state [main] set up: the spawned snake, heading right, score 0,
    the first food, no draw consumed.  'q' does not quit there and an
    arrow does not steer. *)
Theorem instructions_key_is_dropped
    (rows cols : Z) (tape : list Z) (c0 : config) (key : Z) :
  main rows cols tape = Ok (Started c0) →
  ∃ c, step c0 (Some key) = Ok c ∧
       at_phase c = Playing ∧
       snake (vars c) = spawn ((rows - 2) `div` 2) ((cols - 2) `div` 4) ∧
       direction (vars c) = KEY_RIGHT ∧
       score (vars c) = 0 ∧
       food (vars c) = food (vars c0) ∧
       rng c = rng c0.
Proof.
  intros (_ & _ & _ & Hphase & Hsnake & Hdir & Hscore)%main_started.
  eexists. split; [unfold step; by rewrite Hphase |]. simpl. by split_and!.
Qed.

Lemma instructions_key_is_dropped_witness :
  ∃ c0 c,
    main 10 30 [0; 0] = Ok (Started c0) ∧
    step c0 (Some (ord "q"%char)) = Ok c ∧
    at_phase c = Playing ∧ direction (vars c) = KEY_RIGHT.
Proof.
  destruct (main 10 30 [0; 0]) as [[calls | c0] | e] eqn:Hmain;
    try (vm_compute in Hmain; discriminate Hmain).
  destruct (instructions_key_is_dropped 10 30 [0; 0] c0 (ord "q"%char) Hmain)
    as (c & Hstep & Hphase & _ & Hdir & _).
  by exists c0, c.
Defined.

(** ** Restart, wall hits and the phases *)

(** X25.  A restart is a fresh start: after 'r' at the game-over prompt
    the snake, direction, food, score and unread draws are exactly those
    a new launch of [main] on the same terminal would have with the draws
    that were left, and the locals are the same. *)
Theorem restart_is_fresh_start (rows cols : Z) (c c' : config) :
  reachable rows cols c →
  at_phase c = GameOver →
  step c (Some (ord "r"%char)) = Ok c' →
  ∃ c0, main rows cols (rng c) = Ok (Started c0) ∧
        vars c' = vars c0 ∧ rng c' = rng c0 ∧ locals c' = locals c0 ∧
        at_phase c' = Playing.
Proof.
  intros Hreach Hphase Hstep.
  pose proof (board_is_fixed_locals rows cols c Hreach) as Hloc.
  destruct Hreach as (tape & c1 & slots & (Hrows & Hcols & _)%main_started & _).
  unfold step in Hstep. rewrite Hphase in Hstep. simpl in Hstep.
  rewrite restart_spec, Hloc in Hstep. simpl in Hstep.
  rewrite main_large by done.
  destruct (create_food _ _ _ (rng c)) as [[food' tape'] | e]; [| discriminate].
  injection Hstep as <-. eexists. split; [reflexivity |]. by split_and!.
Qed.

Lemma restart_is_fresh_start_witness :
  ∃ c c' c0,
    reachable 10 30 c ∧ step c (Some (ord "r"%char)) = Ok c' ∧
    main 10 30 [9; 9] = Ok (Started c0) ∧ vars c' = vars c0 ∧
    food (vars c') = (4, 10).
Proof.
  destruct demo_game_over as (c & Hreach & Hphase & Hloc & _ & Hrng).
  destruct (step c (Some (ord "r"%char))) as [c' | e] eqn:Hstep.
  2: { unfold step in Hstep. rewrite Hphase in Hstep. simpl in Hstep.
       rewrite restart_spec, Hloc, Hrng in Hstep. vm_compute in Hstep.
       discriminate Hstep. }
  destruct (restart_is_fresh_start 10 30 c c' Hreach Hphase Hstep)
    as (c0 & Hmain & Hvars & _).
  rewrite Hrng in Hmain. exists c, c', c0. split_and!; try done.
  rewrite Hvars. vm_compute in Hmain. by injection Hmain as <-.
Defined.

(** X26.  From the interior, the border is hit exactly at the edge of the
    interior: in a reachable state the new head lies on a border row or
    column if and only if the head is on interior row 1 going up, on
    interior row h-2 going down, on interior column 1 going left or on
    interior column w-2 going right. *)
Theorem wall_hit_iff_at_edge
    (rows cols : Z) (c : config) (key : Z) (head : cell) (rest : list cell)
    (new_head : cell) :
  reachable rows cols c →
  snake (vars c) = head :: rest →
  calculate_new_head (snake (vars c)) (steer key (direction (vars c)))
    = Ok new_head →
  on_border (h (locals c)) (w (locals c)) new_head ↔
    (steer key (direction (vars c)) = KEY_UP ∧ head.1 = 1) ∨
    (steer key (direction (vars c)) = KEY_DOWN ∧ head.1 = h (locals c) - 2) ∨
    (steer key (direction (vars c)) = KEY_LEFT ∧ head.2 = 1) ∨
    (steer key (direction (vars c)) = KEY_RIGHT ∧ head.2 = w (locals c) - 2).
Proof.
  intros ([_ [_ Hall]] & _ & _ & Harrow & _)%reachable_game_ok Hsnake Hnew.
  rewrite Hsnake in Hall, Hnew. apply Forall_cons in Hall as [[Hrow Hcol] _].
  pose proof (steer_arrow key _ Harrow) as Hd. apply arrow_cases in Hd.
  unfold on_border.
  destruct Hd as [Hd | [Hd | [Hd | Hd]]]; rewrite Hd in Hnew |- *;
    injection Hnew as <-; simpl;
    (split; [intros H | intros [[H ?] | [[H ?] | [[H ?] | [H ?]]]]];
     try discriminate H; lia).
Qed.

Lemma wall_hit_iff_at_edge_witness :
  ∃ c, reachable 10 30 c ∧ snake (vars c) = [(1, 8); (2, 8); (3, 8)] ∧
       on_border (h (locals c)) (w (locals c)) (0, 8).
Proof.
  destruct demo_game_over as (c & Hreach & _ & _ & Hvars & _).
  assert (Hsnake : snake (vars c) = [(1, 8); (2, 8); (3, 8)]) by by rewrite Hvars.
  exists c. split_and!; try done.
  apply (wall_hit_iff_at_edge 10 30 c (-1) (1, 8) [(2, 8); (3, 8)] (0, 8) Hreach Hsnake).
  - by rewrite Hvars.
  - left. by rewrite Hvars.
Defined.

(** X27.  The phases change only along these edges: the instructions
    screen leads to play; play goes on or leads to game over or to the
    end; game over stays or leads back to play or to the end; the end is
    final.  The program never returns to the instructions screen and
    never leaves the instructions screen for game over or the end. *)
Theorem phase_edges (c : config) (slot : option Z) (c' : config) :
  step c slot = Ok c' →
  match at_phase c, at_phase c' with
  | Instructions, (Instructions | Playing) => True
  | Playing, (Playing | GameOver | Terminated) => True
  | GameOver, (GameOver | Playing | Terminated) => True
  | Terminated, Terminated => True
  | _, _ => False
  end.
Proof.
  intros Htr%step_transition.
  destruct Htr as [| Hph | [Hph | Hph] | key new_head Hph Hnew Hhit
                   | key new_head food' tape' Hph Hnew Hhit Heat Hfood
                   | key new_head tail Hph Hnew Hhit Hne Hlast
                   | food' tape' Hph Hfood]; simpl; try (by rewrite Hph).
  by destruct (at_phase c).
Qed.

Lemma phase_edges_witness :
  ∃ c', step scenario_corner None = Ok c' ∧ at_phase c' ≠ Instructions.
Proof.
  destruct (step scenario_corner None) as [c' | e] eqn:Hstep;
    [| vm_compute in Hstep; discriminate Hstep].
  pose proof (phase_edges scenario_corner None c' Hstep) as Hedge.
  exists c'. split; [reflexivity |].
  change (at_phase scenario_corner) with Playing in Hedge.
  intros Hback. by rewrite Hback in Hedge.
Defined.

(** ** Eating the last free cell *)

Lemma filling_state :
  ∃ c, reachable 10 30 c ∧ at_phase c = Playing ∧
       locals c = Env 10 30 8 28 7 4 100 100 ∧
       vars c = Game (reverse (take 152 filling_walk) ++ spawn 4 7)
                     KEY_LEFT (4, 4) 152.
Proof.
  destruct (main 10 30 filling_tape) as [[calls | c0] | e] eqn:Hmain;
    try (vm_compute in Hmain; discriminate Hmain).
  destruct (run c0 filling_slots) as [c | e] eqn:Hrun.
  2: { vm_compute in Hmain. injection Hmain as <-.
       vm_compute in Hrun. discriminate Hrun. }
  exists c. split; [by exists filling_tape, c0, filling_slots |].
  vm_compute in Hmain. injection Hmain as <-.
  vm_compute in Hrun. injection Hrun as <-.
  split_and!; vm_compute; reflexivity.
Qed.

Lemma filling_walk_covers (x : cell) :
  interior 8 28 x →
  x ∈ (4, 4) :: reverse (take 152 filling_walk) ++ spawn 4 7.
Proof.
  intros [Hrow Hcol].
  assert (Hx : x ∈ cprod (seqZ 1 6) (seqZ 1 26)).
  { apply list_elem_of_cprod. rewrite !elem_of_seqZ. lia. }
  assert (Hall : Forall (λ y, y ∈ (4, 4) :: reverse (take 152 filling_walk)
                                   ++ spawn 4 7)
                        (cprod (seqZ 1 6) (seqZ 1 26))).
  { apply (bool_decide_unpack _). vm_compute. exact I. }
  rewrite Forall_forall in Hall. by apply Hall.
Qed.

(** C1 fails on the code.  On a 10 x 30 terminal a player who follows
    [filling_walk], with every food drawn on the next cell of the walk,
    reaches a state of play with a snake of 155 cells, score 152 and the
    food on the last free interior cell (4, 4), right above the head.
    The key UP gives a new head that is the food cell and does not
    collide.  After [snake.insert] the snake covers the whole interior,
    so create_food (line 115) returns on no sequence of draws: line 117,
    [score += 1], is never reached and the tick does not complete,
    whatever draws the generator holds. *)
Theorem board_filling_eat_never_completes :
  ∃ c,
    reachable 10 30 c ∧ at_phase c = Playing ∧
    length (snake (vars c)) = 155%nat ∧ score (vars c) = 152 ∧
    food (vars c) = (4, 4) ∧
    calculate_new_head (snake (vars c)) (steer KEY_UP (direction (vars c)))
      = Ok (4, 4) ∧
    collision (h (locals c)) (w (locals c)) (4, 4) (snake (vars c)) = false ∧
    (∀ tape food' rest,
       create_food (h (locals c)) (w (locals c)) ((4, 4) :: snake (vars c)) tape
         ≠ Ok (food', rest)) ∧
    tick c KEY_UP = Raise NoMoreDraws ∧
    (∀ tape,
       tick {| locals := locals c; at_phase := at_phase c; vars := vars c;
               rng := tape; log := log c |} KEY_UP = Raise NoMoreDraws).
Proof.
  destruct filling_state as (c & Hreach & Hphase & Hloc & Hvars).
  assert (Hnew : calculate_new_head (snake (vars c))
                   (steer KEY_UP (direction (vars c))) = Ok (4, 4))
    by (rewrite Hvars; vm_compute; reflexivity).
  assert (Hhit : collision (h (locals c)) (w (locals c)) (4, 4) (snake (vars c))
                 = false)
    by (rewrite Hloc, Hvars; vm_compute; reflexivity).
  assert (Hfull : ∀ tape food' rest,
            create_food (h (locals c)) (w (locals c)) ((4, 4) :: snake (vars c))
              tape ≠ Ok (food', rest)).
  { intros tape food' rest Hfood.
    destruct (create_food_sound _ _ _ _ _ _ Hfood) as [Hfree Hin].
    apply Hfree. rewrite Hloc in Hin. rewrite Hvars.
    by apply filling_walk_covers. }
  assert (Hhang : ∀ tape,
            tick {| locals := locals c; at_phase := at_phase c; vars := vars c;
                    rng := tape; log := log c |} KEY_UP = Raise NoMoreDraws).
  { intros tape. rewrite tick_moves by discriminate.
    rewrite (move_eats _ _ (4, 4)); simpl; [| exact Hnew | exact Hhit | by rewrite Hvars].
    destruct (create_food _ _ _ tape) as [[food' rest] | e] eqn:Hfood;
      [by destruct (Hfull tape food' rest) |].
    destruct (create_food_raises _ _ _ _ _ Hfood) as [[_ Hsmall] | [-> _]];
      [rewrite Hloc in Hsmall; simpl in Hsmall; lia | reflexivity]. }
  exists c. split_and!; try done.
  - rewrite Hvars. vm_compute. reflexivity.
  - by rewrite Hvars.
  - by rewrite Hvars.
  - specialize (Hhang (rng c)). by destruct c.
Qed.
